(** * The exec-approval manager of the gateway

    A shallow embedding of [src/gateway/exec-approval-manager.ts]: the
    registry of pending approvals, its timers and decision promises, and the
    append-only journal on disk, followed by the properties of the
    specification that concern them.

    Conventions of the embedding.
    - A JavaScript string is the list of its UTF-16 code units.
    - A JavaScript number that holds a millisecond count or a limit is an
      integer of [Z] (one that is a JavaScript number: below 2^53 in
      absolute value, or a multiple of the power of two that its size
      calls for); a sum of two of them is rounded as JavaScript rounds it
      and may be infinite.  [Date.now()] and [randomUUID()] are inputs of
      the operation that calls them.
    - Objects that the code shares by reference (approval records, timers,
      promises) live in stores indexed by the stamp they were allocated
      with; a reference is that stamp.
    - A call that may throw returns a [completion]; the faults of the file
      system are inputs of the call they hit, and an append that fails may
      have written some of its text.
    - Records are written by the manager only: its clients read the
      records they hold and never assign their fields. *)

From Stdlib Require Import ZArith NArith Lia.
From stdpp Require Import gmap list strings.

(** ** JavaScript strings *)

Module Js.

Definition jsstring := list N.

(** The code units of an ASCII literal. *)
Definition str (s : string) : jsstring :=
  (λ a, N.of_nat (Ascii.nat_of_ascii a)) <$> String.list_ascii_of_string s.

Definition LF : N := 10%N.

(** WhiteSpace and LineTerminator of ECMAScript, the code units that
    [String.prototype.trim] strips. *)
Definition isWhiteSpace (c : N) : bool :=
  ((0x09 <=? c) && (c <=? 0x0D))%N
  || (c =? 0x20)%N || (c =? 0xA0)%N || (c =? 0x1680)%N
  || ((0x2000 <=? c) && (c <=? 0x200A))%N
  || (c =? 0x2028)%N || (c =? 0x2029)%N || (c =? 0x202F)%N
  || (c =? 0x205F)%N || (c =? 0x3000)%N || (c =? 0xFEFF)%N.

Fixpoint trimStart (s : jsstring) : jsstring :=
  match s with
  | [] => []
  | c :: s' => if isWhiteSpace c then trimStart s' else s
  end.

Definition trimEnd (s : jsstring) : jsstring := rev (trimStart (rev s)).

Definition trim (s : jsstring) : jsstring := trimEnd (trimStart s).

(** [s.split("\n")]: the pieces between line feeds; an empty string gives
    one empty piece. *)
Fixpoint split_lines (s : jsstring) : list jsstring :=
  match s with
  | [] => [[]]
  | c :: s' =>
      if (c =? LF)%N then [] :: split_lines s'
      else match split_lines s' with
           | [] => [[c]]
           | line :: rest => (c :: line) :: rest
           end
  end.

(** Truthiness of a string: the empty string is falsy. *)
Definition truthy (s : jsstring) : bool :=
  match s with [] => false | _ => true end.

(** [Array.prototype.slice(start)] with one argument. *)
Definition slice_from {A} (start : Z) (l : list A) : list A :=
  let len := Z.of_nat (length l) in
  let k := if (start <? 0)%Z then Z.max (len + start) 0 else Z.min start len in
  drop (Z.to_nat k) l.

(** A JavaScript number that holds an integer, or an infinity. *)
Inductive number : Type :=
  | Finite (z : Z)
  | PlusInfinity
  | MinusInfinity.

(** The integer nearest to [z] that is a JavaScript number (a double, with
    53 bits of precision), the one with an even last bit when two are as
    near. *)
Definition round_double (z : Z) : Z :=
  let a := Z.abs z in
  let e := (Z.log2 a - 52)%Z in
  if (e <=? 0)%Z then z
  else
    let q := Z.shiftr a e in
    let r := (a - Z.shiftl q e)%Z in
    let half := Z.shiftl 1 (e - 1) in
    let q' := if (r <? half)%Z then q
              else if (half <? r)%Z then (q + 1)%Z
              else if Z.even q then q else (q + 1)%Z in
    (Z.sgn z * Z.shiftl q' e)%Z.

(** [a + b] on two numbers that hold integers: the sum is rounded to the
    nearest double, and is infinite when that is 2^1024 or more in
    absolute value. *)
Definition number_add (a b : Z) : number :=
  let r := round_double (a + b) in
  if (2 ^ 1024 <=? r)%Z then PlusInfinity
  else if (r <=? - 2 ^ 1024)%Z then MinusInfinity
  else Finite r.

(** A property that is absent ([undefined]), [null], or present. *)
Inductive optional (A : Type) : Type :=
  | Undefined
  | Null
  | Value (a : A).
Arguments Undefined {A}.
Arguments Null {A}.
Arguments Value {A} a.

(** [x ?? null] *)
Definition orNull {A} (x : optional A) : optional A :=
  match x with
  | Value a => Value a
  | _ => Null
  end.

(** What a thrown value looks like to the code: a Node system error with
    its [code], or a plain [Error] with its message. *)
Inductive exn : Type :=
  | ErrnoException (code : jsstring)
  | Error (message : jsstring).

Inductive completion (A : Type) : Type :=
  | Returns (a : A)
  | Throws (e : exn).
Arguments Returns {A} a.
Arguments Throws {A} e.

#[global] Instance optional_eq_dec {A} `{EqDecision A} : EqDecision (optional A).
Proof. solve_decision. Defined.
#[global] Instance number_eq_dec : EqDecision number.
Proof. solve_decision. Defined.
#[global] Instance exn_eq_dec : EqDecision exn.
Proof. solve_decision. Defined.

End Js.
Import Js.

(** ** JSON values and [JSON.stringify]

    [JSON.stringify] is a function of the platform.  It is written out here
    after ECMA-262 (SerializeJSONProperty, QuoteJSONString) for the values
    that the manager hands to it, because the journal format depends on
    what it emits: a record must stay on one line. *)

Module JSON.

#[warnings="-register-all"]
Inductive json : Type :=
  | JNull
  | JBool (b : bool)
  | JNumber (z : Z)
  | JString (s : jsstring)
  | JArray (elements : list json)
  | JObject (members : list (jsstring * json)).

Definition isHighSurrogate (c : N) : bool := ((0xD800 <=? c) && (c <=? 0xDBFF))%N.
Definition isLowSurrogate (c : N) : bool := ((0xDC00 <=? c) && (c <=? 0xDFFF))%N.

Definition hexDigit (n : N) : N :=
  if (n <? 10)%N then (48 + n)%N else (87 + n)%N.

(** UnicodeEscape: a backslash, [u], and four lowercase hexadecimal digits. *)
Definition unicodeEscape (c : N) : jsstring :=
  [92; 117;
   hexDigit ((c / 4096) mod 16); hexDigit ((c / 256) mod 16);
   hexDigit ((c / 16) mod 16); hexDigit (c mod 16)]%N.

(** One code unit that is not the first half of a surrogate pair. *)
Definition quoteUnit (c : N) : jsstring :=
  if (c =? 8)%N then [92; 98]%N
  else if (c =? 9)%N then [92; 116]%N
  else if (c =? 10)%N then [92; 110]%N
  else if (c =? 12)%N then [92; 102]%N
  else if (c =? 13)%N then [92; 114]%N
  else if (c =? 34)%N then [92; 34]%N
  else if (c =? 92)%N then [92; 92]%N
  else if (c <? 32)%N || isHighSurrogate c || isLowSurrogate c then unicodeEscape c
  else [c].

Fixpoint quoteUnits (s : jsstring) : jsstring :=
  match s with
  | [] => []
  | c :: s' =>
      if isHighSurrogate c then
        match s' with
        | d :: s'' =>
            if isLowSurrogate d then c :: d :: quoteUnits s''
            else unicodeEscape c ++ quoteUnits s'
        | [] => unicodeEscape c
        end
      else quoteUnit c ++ quoteUnits s'
  end.

(** QuoteJSONString *)
Definition quote (s : jsstring) : jsstring := [34%N] ++ quoteUnits s ++ [34%N].

Fixpoint digits (d : Decimal.uint) : jsstring :=
  match d with
  | Decimal.Nil => []
  | Decimal.D0 d => 48%N :: digits d
  | Decimal.D1 d => 49%N :: digits d
  | Decimal.D2 d => 50%N :: digits d
  | Decimal.D3 d => 51%N :: digits d
  | Decimal.D4 d => 52%N :: digits d
  | Decimal.D5 d => 53%N :: digits d
  | Decimal.D6 d => 54%N :: digits d
  | Decimal.D7 d => 55%N :: digits d
  | Decimal.D8 d => 56%N :: digits d
  | Decimal.D9 d => 57%N :: digits d
  end.

(** Number::toString of an integer (below 10^21 in absolute value, where
    JavaScript still writes all the digits). *)
Definition numberToString (z : Z) : jsstring :=
  match z with
  | Z0 => [48%N]
  | Zpos p => digits (Pos.to_uint p)
  | Zneg p => 45%N :: digits (Pos.to_uint p)
  end.

Fixpoint stringify (v : json) : jsstring :=
  match v with
  | JNull => str "null"
  | JBool true => str "true"
  | JBool false => str "false"
  | JNumber z => numberToString z
  | JString s => quote s
  | JArray l =>
      [91%N] ++
      (fix elements (l : list json) : jsstring :=
         match l with
         | [] => []
         | x :: l' =>
             stringify x ++
             match l' with [] => [] | _ => 44%N :: elements l' end
         end) l
      ++ [93%N]
  | JObject ms =>
      [123%N] ++
      (fix members (ms : list (jsstring * json)) : jsstring :=
         match ms with
         | [] => []
         | (k, x) :: ms' =>
             quote k ++ [58%N] ++ stringify x ++
             match ms' with [] => [] | _ => 44%N :: members ms' end
         end) ms
      ++ [125%N]
  end.

#[global] Instance json_inhabited : Inhabited json := populate JNull.

End JSON.
Import JSON.

(** ** Data model *)

(** Modelled from the spec: the decision vocabulary of
    [infra/exec-approvals] is not among the sources.  The manager treats a
    decision as an opaque value; it is the string tag a caller passes, such
    as [approve] or [deny]. *)
Definition ExecApprovalDecision := jsstring.

Module Payload.
Record t : Type := mk {
  command : jsstring;
  cwd : optional jsstring;
  host : optional jsstring;
  security : optional jsstring;
  ask : optional jsstring;
  agentId : optional jsstring;
  resolvedPath : optional jsstring;
  sessionKey : optional jsstring
}.
End Payload.
Abbreviation ExecApprovalRequestPayload := Payload.t.

Module Approval.
Record record : Type := mk {
  id : jsstring;
  request : ExecApprovalRequestPayload;
  createdAtMs : Z;
  expiresAtMs : number;
  requestedByConnId : optional jsstring;
  requestedByDeviceId : optional jsstring;
  requestedByClientId : optional jsstring;
  resolvedAtMs : option Z;
  decision : option ExecApprovalDecision;
  resolvedBy : optional jsstring
}.

(** The three assignments that resolve a record. *)
Definition stamp (at_ms : Z) (d : option ExecApprovalDecision)
    (by_ : optional jsstring) (r : record) : record :=
  {| id := id r; request := request r;
     createdAtMs := createdAtMs r; expiresAtMs := expiresAtMs r;
     requestedByConnId := requestedByConnId r;
     requestedByDeviceId := requestedByDeviceId r;
     requestedByClientId := requestedByClientId r;
     resolvedAtMs := Some at_ms; decision := d; resolvedBy := by_ |}.
End Approval.
Abbreviation ExecApprovalRecord := Approval.record.

Module Journal.
Record entry : Type := mk {
  id : jsstring;
  command : jsstring;
  decision : option ExecApprovalDecision;
  resolvedBy : optional jsstring;
  (** [record.resolvedAtMs!]: the assertion is not checked at run time *)
  resolvedAtMs : option Z;
  requestedByDeviceId : optional jsstring
}.

(** The own enumerable properties of an entry as [JSON.stringify] sees
    them, in insertion order; a property whose value is [undefined] is left
    out. *)
Definition string_member (k : string) (v : optional jsstring) : list (jsstring * json) :=
  match v with
  | Undefined => []
  | Null => [(str k, JNull)]
  | Value s => [(str k, JString s)]
  end.

Definition to_json (e : entry) : json :=
  JObject (
    [(str "id", JString (id e)); (str "command", JString (command e))]
    ++ match decision e with
       | Some d => [(str "decision", JString d)]
       | None => []
       end
    ++ string_member "resolvedBy" (resolvedBy e)
    ++ match resolvedAtMs e with
       | Some t => [(str "resolvedAtMs", JNumber t)]
       | None => []
       end
    ++ string_member "requestedByDeviceId" (requestedByDeviceId e)).
End Journal.
Abbreviation JournalEntry := Journal.entry.

(** References: a record object, a timer handle and a promise are named by
    the stamp they were allocated with. *)
Definition loc := nat.

Module Pending.
(** [resolve] and [reject] of the source are the two capabilities of
    [promise]; an entry is identified by its stamps, so comparing two
    entries with [===] is comparing these fields. *)
Record entry : Type := mk {
  record : loc;
  timer : nat;
  promise : nat
}.
End Pending.
Abbreviation PendingEntry := Pending.entry.

#[global] Instance payload_eq_dec : EqDecision ExecApprovalRequestPayload.
Proof. solve_decision. Defined.
#[global] Instance record_eq_dec : EqDecision ExecApprovalRecord.
Proof. solve_decision. Defined.
#[global] Instance pending_eq_dec : EqDecision PendingEntry.
Proof. solve_decision. Defined.

#[global] Instance payload_inhabited : Inhabited ExecApprovalRequestPayload :=
  populate (Payload.mk [] Undefined Undefined Undefined Undefined Undefined
                       Undefined Undefined).
#[global] Instance record_inhabited : Inhabited ExecApprovalRecord :=
  populate (Approval.mk [] inhabitant 0 (Finite 0) Undefined Undefined Undefined
                        None None Undefined).

(** Grace period to keep resolved entries for late awaitDecision calls *)
Definition RESOLVED_ENTRY_GRACE_MS : Z := 15000.

Definition JOURNAL_FILENAME : jsstring := str "exec-approval-journal.jsonl".

(** The permission bits [0o600]: read and write for the owner. *)
Definition mode_0o600 : Z := 0x180.

(** ** The file system and the platform *)

Module Fs.
Record file : Type := mkfile { data : jsstring; mode : Z }.
Record t : Type := mk {
  dirs : gset jsstring;
  files : gmap jsstring file
}.
Definition empty : t := mk ∅ ∅.
End Fs.

(** The functions of Node that the manager calls and that are neither
    written out above nor part of its own state. *)
Class Platform : Type := {
  path_join : jsstring → jsstring → jsstring;
  path_dirname : jsstring → jsstring;
  (** [None] when [JSON.parse] throws a SyntaxError *)
  JSON_parse : jsstring → option json
}.

Definition ENOENT : jsstring := str "ENOENT".

(** How a call of [mkdirSync] with [recursive] fails: with the directories
    [made], parents of the one asked for, that it had made before. *)
Inductive mkdir_failure : Type :=
  | FailsInMkdir (made : gset jsstring) (e : exn).

(** How a call of [appendFileSync] fails: before the file is opened
    (access denied, ...), which leaves the file system as it is, or in the
    middle of its writes (disk full, ...), which leaves at the end of the
    file what got written, [torn]: read back as text, a beginning of the
    text of the call, up to a character that was cut. *)
Inductive append_failure : Type :=
  | FailsAtOpen (e : exn)
  | FailsInWrite (torn : jsstring) (e : exn).

(** An effect on the file system that may throw. *)
Definition io (A : Type) : Type := Fs.t → completion A * Fs.t.

Definition io_ret {A} (a : A) : io A := λ fs, (Returns a, fs).

Definition io_bind {A B} (m : io A) (k : A → io B) : io B :=
  λ fs, match m fs with
        | (Returns a, fs') => k a fs'
        | (Throws e, fs') => (Throws e, fs')
        end.

(** [try { body } catch (e) { handler e }] *)
Definition try_catch {A} (body : io A) (handler : exn → io A) : io A :=
  λ fs, match body fs with
        | (Returns a, fs') => (Returns a, fs')
        | (Throws e, fs') => handler e fs'
        end.

(** [first; second] *)
Definition io_then {A B} (first : io A) (second : io B) : io B :=
  io_bind first (λ _, second).

Section FsCalls.
Context `{Platform}.

(** Each call takes the fault the environment injects into it, if any
    (access denied, disk full, ...).  A read that fails leaves the file
    system as it was; a call that makes directories or writes may have
    done part of its work when it fails. *)

(** [fs.readFileSync(p, "utf-8")] *)
Definition readFileSync (fault : option exn) (p : jsstring) : io jsstring :=
  λ fs, match fault with
        | Some e => (Throws e, fs)
        | None =>
            match Fs.files fs !! p with
            | Some f => (Returns (Fs.data f), fs)
            | None => (Throws (ErrnoException ENOENT), fs)
            end
        end.

(** [fs.mkdirSync(p, { recursive: true })] *)
Definition mkdirSync (fault : option mkdir_failure) (p : jsstring) : io unit :=
  λ fs, match fault with
        | Some (FailsInMkdir made e) =>
            (Throws e, Fs.mk (made ∪ Fs.dirs fs) (Fs.files fs))
        | None => (Returns (), Fs.mk ({[ p ]} ∪ Fs.dirs fs) (Fs.files fs))
        end.

(** [fs.appendFileSync(p, text, { encoding: "utf-8", mode })]: the file is
    opened for appending and created with [mode] when it does not exist
    (the umask of the process is taken to leave the bits of [mode] alone);
    the mode of an existing file stays.  The directory of [p] must
    exist.  The text is written in a loop of writes: a call that fails
    after the file is opened leaves the file there, with what it had
    written. *)
Definition appendFileSync (fault : option append_failure) (p text : jsstring)
    (mode : Z) : io unit :=
  λ fs,
    if decide (path_dirname p ∈ Fs.dirs fs) then
      let appended written :=
        Fs.mk (Fs.dirs fs)
              (<[p := match Fs.files fs !! p with
                      | Some f => Fs.mkfile (Fs.data f ++ written) (Fs.mode f)
                      | None => Fs.mkfile written mode
                      end]> (Fs.files fs)) in
      match fault with
      | None => (Returns (), appended text)
      | Some (FailsAtOpen e) => (Throws e, fs)
      | Some (FailsInWrite torn e) => (Throws e, appended torn)
      end
    else
      match fault with
      | Some (FailsAtOpen e) => (Throws e, fs)
      | _ => (Throws (ErrnoException ENOENT), fs)
      end.

End FsCalls.

(** ** The manager and the runtime it lives in *)

(** What a timer does when it fires. *)
Inductive callback : Type :=
  (** the closure that [register] passes to [setTimeout]: it captures the
      record, the promise's [resolve] and the entry *)
  | Expire (entry : PendingEntry)
  (** the deferred clean-up of the registry *)
  | Evict (recordId : jsstring) (entry : PendingEntry).

Record Timer : Type := mkTimer { t_callback : callback; t_delay : Z }.

#[global] Instance callback_eq_dec : EqDecision callback.
Proof. solve_decision. Defined.
#[global] Instance timer_eq_dec : EqDecision Timer.
Proof. solve_decision. Defined.

(** The private fields of an [ExecApprovalManager] ([persistDir],
    [pending]) together with the part of the runtime it acts on: the record
    objects it was handed, the armed timers, the promises it made with, for
    each, the values its [resolve] function was called with (the first one
    settles the promise, [None] being [null]), the allocation stamp and the
    file system. *)
Record State : Type := mkState {
  persistDir : option jsstring;
  pending : gmap jsstring PendingEntry;
  heap : gmap loc ExecApprovalRecord;
  timers : gmap nat Timer;
  promises : gmap nat (list (option ExecApprovalDecision));
  next : nat;
  fs : Fs.t
}.

(** [new ExecApprovalManager(opts)] in a runtime with file system [fs0] *)
Definition init (persistDir : option jsstring) (fs0 : Fs.t) : State :=
  mkState persistDir ∅ ∅ ∅ ∅ 0 fs0.

(** *** Runtime primitives *)

(** The record object at [l].  Every reference that the manager holds, and
    every reference that [exec] lets a client pass, is allocated; for any
    other [l] this is the empty record. *)
Definition deref (σ : State) (l : loc) : ExecApprovalRecord := heap σ !!! l.

Definition store (l : loc) (r : ExecApprovalRecord) (σ : State) : State :=
  mkState (persistDir σ) (pending σ) (<[l := r]> (heap σ)) (timers σ)
          (promises σ) (next σ) (fs σ).

(** A new record object. *)
Definition alloc (r : ExecApprovalRecord) (σ : State) : loc * State :=
  (next σ,
   mkState (persistDir σ) (pending σ) (<[next σ := r]> (heap σ)) (timers σ)
           (promises σ) (S (next σ)) (fs σ)).

Definition newPromise (σ : State) : nat * State :=
  (next σ,
   mkState (persistDir σ) (pending σ) (heap σ) (timers σ)
           (<[next σ := []]> (promises σ)) (S (next σ)) (fs σ)).

(** The calls made so far to the [resolve] function of a promise. *)
Definition settlements (σ : State) (p : nat) : list (option ExecApprovalDecision) :=
  promises σ !!! p.

(** Calling the [resolve] function of promise [p] with [v]. *)
Definition settle (p : nat) (v : option ExecApprovalDecision) (σ : State) : State :=
  mkState (persistDir σ) (pending σ) (heap σ) (timers σ)
          (<[p := settlements σ p ++ [v]]> (promises σ)) (next σ) (fs σ).

(** The state of a promise: pending, or fulfilled with the value of the
    first call. *)
Definition fulfilled (σ : State) (p : nat) : option (option ExecApprovalDecision) :=
  head (settlements σ p).

(** The largest delay of a timer of Node, 2^31 - 1 milliseconds. *)
Definition TIMEOUT_MAX : Z := 2147483647.

(** The delay that a timer runs with: Node replaces a delay that is not
    between 1 and [TIMEOUT_MAX] by 1. *)
Definition timer_delay (delay : Z) : Z :=
  if (1 <=? delay)%Z && (delay <=? TIMEOUT_MAX)%Z then delay else 1%Z.

Definition setTimeout (cb : callback) (delay : Z) (σ : State) : nat * State :=
  (next σ,
   mkState (persistDir σ) (pending σ) (heap σ)
           (<[next σ := mkTimer cb (timer_delay delay)]> (timers σ))
           (promises σ) (S (next σ)) (fs σ)).

Definition clearTimeout (t : nat) (σ : State) : State :=
  mkState (persistDir σ) (pending σ) (heap σ) (delete t (timers σ))
          (promises σ) (next σ) (fs σ).

Definition pendingSet (k : jsstring) (e : PendingEntry) (σ : State) : State :=
  mkState (persistDir σ) (<[k := e]> (pending σ)) (heap σ) (timers σ)
          (promises σ) (next σ) (fs σ).

Definition pendingDelete (k : jsstring) (σ : State) : State :=
  mkState (persistDir σ) (delete k (pending σ)) (heap σ) (timers σ)
          (promises σ) (next σ) (fs σ).

Definition withFs (fs' : Fs.t) (σ : State) : State :=
  mkState (persistDir σ) (pending σ) (heap σ) (timers σ)
          (promises σ) (next σ) fs'.

(** *** The methods *)

(** [create]: the record it returns; [now] is [Date.now()] and [uuid] what
    [randomUUID()] would return. *)
Definition create (request : ExecApprovalRequestPayload) (timeoutMs : Z)
    (id : option jsstring) (now : Z) (uuid : jsstring) : ExecApprovalRecord :=
  let resolvedId :=
    match id with
    | Some s => if truthy s && bool_decide (0 < length (trim s)) then trim s else uuid
    | None => uuid
    end in
  Approval.mk resolvedId request now (number_add now timeoutMs)
              Undefined Undefined Undefined None None Undefined.

Definition already_resolved (id : jsstring) : exn :=
  Error (str "approval id '" ++ id ++ str "' already resolved").

(** [register(record, timeoutMs)], [record] being the object at [l]; the
    result is the promise. *)
Definition register (l : loc) (timeoutMs : Z) (σ : State) : completion nat * State :=
  let record := deref σ l in
  match pending σ !! Approval.id record with
  | Some existing =>
      match Approval.resolvedAtMs (deref σ (Pending.record existing)) with
      | None => (Returns (Pending.promise existing), σ)
      | Some _ => (Throws (already_resolved (Approval.id record)), σ)
      end
  | None =>
      let '(promise, σ1) := newPromise σ in
      let entry := Pending.mk l (next σ1) promise in
      let '(_, σ2) := setTimeout (Expire entry) timeoutMs σ1 in
      (Returns promise, pendingSet (Approval.id record) entry σ2)
  end.

(** The timer [t] fires at time [now].  The eviction that follows an expiry
    reads [record.id] when it runs; the id of a record is never assigned
    after the record is made, so it is read here when the eviction is
    scheduled. *)
Definition fire (t : nat) (now : Z) (σ : State) : State :=
  match timers σ !! t with
  | None => σ
  | Some tm =>
      let σ0 := clearTimeout t σ in
      match t_callback tm with
      | Expire entry =>
          let l := Pending.record entry in
          let σ1 := store l (Approval.stamp now None Null (deref σ0 l)) σ0 in
          let σ2 := settle (Pending.promise entry) None σ1 in
          (setTimeout (Evict (Approval.id (deref σ2 l)) entry)
                      RESOLVED_ENTRY_GRACE_MS σ2).2
      | Evict recordId entry =>
          if decide (pending σ0 !! recordId = Some entry)
          then pendingDelete recordId σ0
          else σ0
      end
  end.

Definition getSnapshot (recordId : jsstring) (σ : State) : option loc :=
  Pending.record <$> pending σ !! recordId.

Definition awaitDecision (recordId : jsstring) (σ : State) : option nat :=
  Pending.promise <$> pending σ !! recordId.

(** The faults injected into the two calls of [appendJournalEntry]. *)
Record write_faults : Type := mkFaults {
  mkdir_fault : option mkdir_failure;
  append_fault : option append_failure
}.
Definition no_faults : write_faults := mkFaults None None.

Section Methods.
Context `{Platform}.

Definition journalPath (persistDir : option jsstring) : option jsstring :=
  match persistDir with
  | Some d => if truthy d then Some (path_join d JOURNAL_FILENAME) else None
  | None => None
  end.

(** [!journalPath] is false *)
Definition usable (p : option jsstring) : option jsstring :=
  match p with
  | Some s => if truthy s then Some s else None
  | None => None
  end.

Definition journal_entry_of (record : ExecApprovalRecord) : JournalEntry :=
  Journal.mk (Approval.id record)
             (Payload.command (Approval.request record))
             (Approval.decision record)
             (orNull (Approval.resolvedBy record))
             (Approval.resolvedAtMs record)
             (orNull (Approval.requestedByDeviceId record)).

Definition journal_line (e : JournalEntry) : jsstring :=
  stringify (Journal.to_json e) ++ [LF].

Definition appendJournalEntry (faults : write_faults) (persistDir : option jsstring)
    (record : ExecApprovalRecord) : io unit :=
  match usable (journalPath persistDir) with
  | None => io_ret ()
  | Some journalPath =>
      let entry := journal_entry_of record in
      try_catch
        (io_then (mkdirSync (mkdir_fault faults) (path_dirname journalPath))
                 (appendFileSync (append_fault faults) journalPath
                                 (journal_line entry) mode_0o600))
        (λ _, io_ret ())
  end.

Definition resolve (recordId : jsstring) (decision : ExecApprovalDecision)
    (resolvedBy : optional jsstring) (now : Z) (faults : write_faults)
    (σ : State) : completion bool * State :=
  match pending σ !! recordId with
  | None => (Returns false, σ)
  | Some p =>
      match Approval.resolvedAtMs (deref σ (Pending.record p)) with
      | Some _ => (Returns false, σ)
      | None =>
          let σ1 := clearTimeout (Pending.timer p) σ in
          let l := Pending.record p in
          let σ2 := store l (Approval.stamp now (Some decision) (orNull resolvedBy)
                                            (deref σ1 l)) σ1 in
          match appendJournalEntry faults (persistDir σ2) (deref σ2 l) (fs σ2) with
          | (Throws e, fs') => (Throws e, withFs fs' σ2)
          | (Returns _, fs') =>
              let σ3 := settle (Pending.promise p) (Some decision) (withFs fs' σ2) in
              (Returns true,
               (setTimeout (Evict recordId p) RESOLVED_ENTRY_GRACE_MS σ3).2)
          end
      end
  end.

(** The loop of [loadJournal] over the lines of the file. *)
Fixpoint read_entries (lines : list jsstring) (entries : list json) : list json :=
  match lines with
  | [] => entries
  | line :: rest =>
      let trimmed := trim line in
      if truthy trimmed then
        match JSON_parse trimmed with
        | Some v => read_entries rest (entries ++ [v])
        | None => read_entries rest entries
        end
      else read_entries rest entries
  end.

Definition has_code (code : jsstring) (e : exn) : bool :=
  match e with
  | ErrnoException c => bool_decide (c = code)
  | Error _ => false
  end.

Definition loadJournal (fault : option exn) (persistDir : option jsstring)
    : io (list json) :=
  match usable (journalPath persistDir) with
  | None => io_ret []
  | Some journalPath =>
      try_catch
        (io_bind (readFileSync fault journalPath)
                 (λ content, io_ret (read_entries (split_lines content) [])))
        (λ err, if has_code ENOENT err then io_ret [] else λ fs, (Throws err, fs))
  end.

Definition getAuditLog (limit : option Z) (fault : option exn)
    (persistDir : option jsstring) : io (list json) :=
  io_bind (loadJournal fault persistDir)
    (λ entries,
       match limit with
       | Some n => if bool_decide (n > 0)%Z then io_ret (slice_from (- n) entries)
                   else io_ret entries
       | None => io_ret entries
       end).

End Methods.

(** ** Executions

    What can happen to a manager: its client builds a record by hand or
    with [create], registers a record it holds, resolves an id, or an armed
    timer fires.  Timers are not ordered by their delay: any armed timer
    may be the next to fire. *)

Inductive event : Type :=
  | EvNew (r : ExecApprovalRecord)
  | EvCreate (request : ExecApprovalRequestPayload) (timeoutMs : Z)
             (id : option jsstring) (now : Z) (uuid : jsstring)
  | EvRegister (l : loc) (timeoutMs : Z)
  | EvResolve (recordId : jsstring) (decision : ExecApprovalDecision)
              (resolvedBy : optional jsstring) (now : Z) (faults : write_faults)
  | EvFire (t : nat) (now : Z).

Section Executions.
Context `{Platform}.

(** [None]: the event cannot happen in [σ] (no such object, no such armed
    timer). *)
Definition exec (ev : event) (σ : State) : option State :=
  match ev with
  | EvNew r => Some (alloc r σ).2
  | EvCreate request timeoutMs id now uuid =>
      Some (alloc (create request timeoutMs id now uuid) σ).2
  | EvRegister l timeoutMs =>
      if decide (is_Some (heap σ !! l)) then Some (register l timeoutMs σ).2
      else None
  | EvResolve recordId decision resolvedBy now faults =>
      Some (resolve recordId decision resolvedBy now faults σ).2
  | EvFire t now =>
      if decide (is_Some (timers σ !! t)) then Some (fire t now σ) else None
  end.

Fixpoint run (tr : list event) (σ : State) : option State :=
  match tr with
  | [] => Some σ
  | ev :: tr' =>
      match exec ev σ with
      | Some σ' => run tr' σ'
      | None => None
      end
  end.

Inductive reachable : State → Prop :=
  | reachable_init persistDir fs0 : reachable (init persistDir fs0)
  | reachable_step σ ev σ' :
      reachable σ → exec ev σ = Some σ' → reachable σ'.

(** The discipline of a client that never hands [register] a record that is
    already resolved under an id the registry does not track; the records
    that [create] returns are not resolved. *)
Definition registers_unresolved (ev : event) (σ : State) : Prop :=
  match ev with
  | EvRegister l _ =>
      pending σ !! Approval.id (deref σ l) = None →
      Approval.resolvedAtMs (deref σ l) = None
  | _ => True
  end.

#[global] Instance registers_unresolved_dec ev σ : Decision (registers_unresolved ev σ).
Proof. destruct ev; simpl; apply _. Defined.

Inductive orderly : State → Prop :=
  | orderly_init persistDir fs0 : orderly (init persistDir fs0)
  | orderly_step σ ev σ' :
      orderly σ → registers_unresolved ev σ → exec ev σ = Some σ' → orderly σ'.

(** Running a trace while checking that discipline. *)
Fixpoint run_orderly (tr : list event) (σ : State) : option State :=
  match tr with
  | [] => Some σ
  | ev :: tr' =>
      if decide (registers_unresolved ev σ) then
        match exec ev σ with
        | Some σ' => run_orderly tr' σ'
        | None => None
        end
      else None
  end.

End Executions.

(** ** Notions used in the statements *)

Definition no_LF (s : jsstring) : Prop := Forall (λ c, c ≠ LF) s.

(** The invariants of the reachable states. *)
Record wf (σ : State) : Prop := mk_wf {
  wf_heap : ∀ l, is_Some (heap σ !! l) → l < next σ;
  wf_timers : ∀ t, is_Some (timers σ !! t) → t < next σ;
  wf_promises : ∀ p, is_Some (promises σ !! p) → p < next σ;
  (** a tracked entry holds a live record with the key as its id, and is
      either waiting (timer armed, promise untouched) or resolved (timer
      gone, promise settled once, record stamped) *)
  wf_pending : ∀ k e, pending σ !! k = Some e →
    Pending.record e < next σ
    ∧ Approval.id (deref σ (Pending.record e)) = k
    ∧ Pending.timer e = S (Pending.promise e)
    ∧ Pending.timer e < next σ
    ∧ ((∃ d, timers σ !! Pending.timer e = Some (mkTimer (Expire e) d))
         ∧ settlements σ (Pending.promise e) = []
       ∨ timers σ !! Pending.timer e = None
         ∧ (∃ v, settlements σ (Pending.promise e) = [v])
         ∧ is_Some (Approval.resolvedAtMs (deref σ (Pending.record e))));
  (** an armed expiry timer belongs to the entry tracked under its
      record's id *)
  wf_expire : ∀ t e d, timers σ !! t = Some (mkTimer (Expire e) d) →
    Pending.timer e = t
    ∧ pending σ !! Approval.id (deref σ (Pending.record e)) = Some e;
  (** an eviction is only scheduled for an entry whose expiry timer is gone *)
  wf_evict : ∀ t k e d, timers σ !! t = Some (mkTimer (Evict k e) d) →
    Pending.timer e < next σ ∧ timers σ !! Pending.timer e = None;
  wf_settled : ∀ p, length (settlements σ p) ≤ 1
}.

(** An armed expiry timer waits on a record that is not resolved. *)
Definition timers_sound (σ : State) : Prop :=
  ∀ t e d, timers σ !! t = Some (mkTimer (Expire e) d) →
    Approval.resolvedAtMs (deref σ (Pending.record e)) = None.

(** The resolution transition: the state in which the entry [e], tracked
    under [k], has been resolved at time [now] with outcome [v] ([None]
    for an expiry) by [by_], the file system being [fs'] afterwards.  The
    expiry timer of the entry is gone, the record is stamped, the promise
    has been handed [v], and the eviction is scheduled. *)
Definition settled_state (k : jsstring) (e : PendingEntry)
    (v : option ExecApprovalDecision) (by_ : optional jsstring) (now : Z)
    (fs' : Fs.t) (σ : State) : State :=
  mkState (persistDir σ) (pending σ)
    (<[Pending.record e :=
         Approval.stamp now v by_ (deref σ (Pending.record e))]> (heap σ))
    (<[next σ := mkTimer (Evict k e) RESOLVED_ENTRY_GRACE_MS]>
       (delete (Pending.timer e) (timers σ)))
    (<[Pending.promise e := settlements σ (Pending.promise e) ++ [v]]>
       (promises σ))
    (S (next σ)) fs'.

(** The state after [register] inserted a new entry for the record at [l]. *)
Definition registered_state (l : loc) (timeoutMs : Z) (σ : State) : State :=
  let entry := Pending.mk l (S (next σ)) (next σ) in
  mkState (persistDir σ)
    (<[Approval.id (deref σ l) := entry]> (pending σ))
    (heap σ)
    (<[S (next σ) := mkTimer (Expire entry) (timer_delay timeoutMs)]> (timers σ))
    (<[next σ := []]> (promises σ))
    (S (S (next σ))) (fs σ).

(** The text whose lines are [lines]: the lines with a line feed between
    one and the next. *)
Fixpoint join_lines (lines : list jsstring) : jsstring :=
  match lines with
  | [] => []
  | line :: rest =>
      match rest with
      | [] => line
      | _ => line ++ LF :: join_lines rest
      end
  end.


Definition journal_text (fs0 : Fs.t) (journalPath : jsstring) : jsstring :=
  match Fs.files fs0 !! journalPath with
  | Some f => Fs.data f
  | None => []
  end.

Section Notions.
Context `{Platform}.

(** What one line of the journal contributes. *)
Definition parse_line (line : jsstring) : option json :=
  if truthy (trim line) then JSON_parse (trim line) else None.

(** The entries that [loadJournal] finds in a text. *)
Definition entries_of (text : jsstring) : list json :=
  read_entries (split_lines text) [].

(** One call of [resolve]. *)
Record resolution : Type := mkResolution {
  res_id : jsstring;
  res_decision : ExecApprovalDecision;
  res_by : optional jsstring;
  res_now : Z
}.

(** Calls of [resolve] one after the other, none of them meeting a fault. *)
Fixpoint resolve_each (calls : list resolution) (σ : State)
    : list (completion bool) * State :=
  match calls with
  | [] => ([], σ)
  | c :: rest =>
      let '(r, σ1) :=
        resolve (res_id c) (res_decision c) (res_by c) (res_now c) no_faults σ in
      let '(rs, σ2) := resolve_each rest σ1 in
      (r :: rs, σ2)
  end.

(** The record tracked under an id. *)
Definition tracked (σ : State) (recordId : jsstring) : ExecApprovalRecord :=
  match getSnapshot recordId σ with
  | Some l => deref σ l
  | None => inhabitant
  end.

(** The entry that call [c] is to leave in the journal. *)
Definition journaled (σ : State) (c : resolution) : JournalEntry :=
  Journal.mk (res_id c)
             (Payload.command (Approval.request (tracked σ (res_id c))))
             (Some (res_decision c)) (orNull (res_by c)) (Some (res_now c))
             (orNull (Approval.requestedByDeviceId (tracked σ (res_id c)))).

Definition awaiting (σ : State) (recordId : jsstring) : Prop :=
  ∃ p, pending σ !! recordId = Some p
       ∧ Approval.resolvedAtMs (deref σ (Pending.record p)) = None.

End Notions.

(** ** Notions used in the further properties *)

(** The bookkeeping of evictions in the reachable states. *)
Record housekeeping (σ : State) : Prop := mk_housekeeping {
  (** an armed eviction waits the grace period and is for the entry that
      the registry tracks under its id *)
  hk_evict : ∀ t k e d, timers σ !! t = Some (mkTimer (Evict k e) d) →
    d = RESOLVED_ENTRY_GRACE_MS ∧ pending σ !! k = Some e;
  (** a tracked entry whose expiry timer is gone has its eviction armed *)
  hk_resolved : ∀ k e, pending σ !! k = Some e →
    timers σ !! Pending.timer e = None →
    ∃ t, timers σ !! t = Some (mkTimer (Evict k e) RESOLVED_ENTRY_GRACE_MS);
  (** no entry has two evictions armed *)
  hk_once : ∀ t1 t2 k1 k2 e d1 d2,
    timers σ !! t1 = Some (mkTimer (Evict k1 e) d1) →
    timers σ !! t2 = Some (mkTimer (Evict k2 e) d2) → t1 = t2
}.

(** The entry that a timer callback captured. *)
Definition callback_entry (cb : callback) : PendingEntry :=
  match cb with
  | Expire entry => entry
  | Evict _ entry => entry
  end.

(** The events that act on the entry [e] tracked under [k]: a [resolve] of
    its id and the firing of a timer whose callback captured it. *)
Definition concerns (σ : State) (k : jsstring) (e : PendingEntry) (ev : event)
    : Prop :=
  match ev with
  | EvResolve recordId _ _ _ _ => recordId = k
  | EvFire t _ =>
      match timers σ !! t with
      | Some tm => callback_entry (t_callback tm) = e
      | None => False
      end
  | _ => False
  end.

#[global] Instance concerns_dec σ k e ev : Decision (concerns σ k e ev).
Proof. destruct ev; simpl; try apply _. destruct (timers σ !! t); apply _. Defined.

Definition is_resolve (ev : event) : bool :=
  match ev with
  | EvResolve _ _ _ _ _ => true
  | _ => false
  end.

(** The promise [p] has not been handed a decision: whatever its [resolve]
    function was called with is [null]. *)
Definition undecided (σ : State) (p : nat) : Prop :=
  Forall (λ v, v = None) (settlements σ p).

(** The file system [fs1] is [fs0] with a longer journal: directories and
    files stay, every file but the journal keeps its content, the journal
    keeps its mode and its text is extended. *)
Definition journal_extends (journalPath : jsstring) (fs0 fs1 : Fs.t) : Prop :=
  Fs.dirs fs0 ⊆ Fs.dirs fs1
  ∧ (∀ p, p ≠ journalPath → Fs.files fs1 !! p = Fs.files fs0 !! p)
  ∧ (∀ f, Fs.files fs0 !! journalPath = Some f →
       ∃ f', Fs.files fs1 !! journalPath = Some f' ∧ Fs.mode f' = Fs.mode f)
  ∧ journal_text fs0 journalPath `prefix_of` journal_text fs1 journalPath.

(** The journal write of the event, when it makes one, does not fail in
    the middle of its writes: it writes the whole line or nothing. *)
Definition untorn (ev : event) : Prop :=
  match ev with
  | EvResolve _ _ _ _ faults =>
      match append_fault faults with
      | Some (FailsInWrite _ _) => False
      | _ => True
      end
  | _ => True
  end.

(** A text that is empty or ends with a line feed. *)
Definition terminated (text : jsstring) : Prop :=
  text = [] ∨ ∃ t, text = t ++ [LF].

(** White space that does not end a line: blanks, tabs, a carriage
    return. *)
Definition padding (ws : jsstring) : Prop :=
  Forall (λ c, isWhiteSpace c = true ∧ c ≠ LF) ws.

(** ** A platform to run examples on

    Paths are joined with a slash; the parser reads back the journal lines
    of the entries that the examples write and rejects every other text. *)

Module Sample.

Definition join (a b : jsstring) : jsstring := a ++ str "/" ++ b.

Fixpoint dirname (p : jsstring) : jsstring :=
  match p with
  | [] => []
  | c :: p' =>
      if bool_decide (47%N ∈ p') then c :: dirname p' else []
  end.

Definition echo_entry (id : string) (cmd : string) (d : string) (t : Z) : JournalEntry :=
  Journal.mk (str id) (str cmd) (Some (str d)) (Value (str "test-user")) (Some t) Null.

Definition known : list JournalEntry :=
  [echo_entry "a" "echo hello" "approve" 1000;
   echo_entry "b" "ls -la" "deny" 2000;
   echo_entry "c" "cmd-2" "approve" 3000].

Definition parse (s : jsstring) : option json :=
  Journal.to_json <$>
    head (filter (λ e, stringify (Journal.to_json e) = s) known).

#[global] Instance platform : Platform := {|
  path_join := join;
  path_dirname := dirname;
  JSON_parse := parse
|}.

Definition req (cmd : string) : ExecApprovalRequestPayload :=
  Payload.mk (str cmd) Undefined Undefined Undefined Undefined Undefined
             Undefined Undefined.

Definition req_echo : ExecApprovalRequestPayload := req "echo hello".

Definition user : optional jsstring := Value (str "test-user").

(** The scenario of the test-suite: three requests created and registered
    against a fresh directory ... *)
Definition three_registered : list event :=
  [EvCreate (req "echo hello") 30000 (Some (str "a")) 10 (str "uuid-1");
   EvRegister 0 30000;
   EvCreate (req "ls -la") 30000 (Some (str "b")) 20 (str "uuid-2");
   EvRegister 3 30000;
   EvCreate (req "cmd-2") 30000 (Some (str "c")) 30 (str "uuid-3");
   EvRegister 6 30000].

(** ... and then resolved. *)
Definition three_resolved : list event :=
  three_registered ++
  [EvResolve (str "a") (str "approve") user 1000 no_faults;
   EvResolve (str "b") (str "deny") user 2000 no_faults;
   EvResolve (str "c") (str "approve") user 3000 no_faults].

Definition dir : option jsstring := Some (str "/tmp/approvals").

Definition journal_file : jsstring :=
  str "/tmp/approvals/exec-approval-journal.jsonl".

(** The state a trace leads to from a new manager on the file system
    [fs0]; the new manager itself when the trace cannot run. *)
Definition after_on (fs0 : Fs.t) (persistDir : option jsstring) (tr : list event)
    : State :=
  default (init persistDir fs0) (run tr (init persistDir fs0)).

Definition after (persistDir : option jsstring) (tr : list event) : State :=
  after_on Fs.empty persistDir tr.

(** A file system whose journal ends in the middle of a line. *)
Definition cut_short : Fs.t :=
  Fs.mk {[ str "/tmp/approvals" ]}
        {[ journal_file := Fs.mkfile (str "{") mode_0o600 ]}.

(** The states of the scenario. *)
Definition registered : State := after dir three_registered.
Definition resolved : State := after dir three_resolved.
Definition registered_in_memory : State := after None three_registered.
Definition registered_on_cut_short : State :=
  after_on cut_short dir three_registered.

Definition entry_a : PendingEntry := Pending.mk 0 2 1.

(** A later part of the sample scenario: the entry of [a] is evicted, [b]
    is resolved a second time, a fourth request is created and registered
    and expires. *)
Definition later : list event :=
  [EvFire 9 20000;
   EvResolve (str "b") (str "approve") Null 21000 no_faults;
   EvCreate (req "cmd-3") 30000 (Some (str "d")) 22000 (str "uuid-4");
   EvRegister 12 30000;
   EvFire 14 60000].

Definition three_calls : list resolution :=
  [mkResolution (str "a") (str "approve") user 1000;
   mkResolution (str "b") (str "deny") user 2000;
   mkResolution (str "c") (str "approve") user 3000].

Definition entry_b : PendingEntry := Pending.mk 3 5 4.

(** A journal with a line that is not JSON and a blank line between two
    records. *)
Definition damaged_lines : list jsstring :=
  [stringify (Journal.to_json (echo_entry "a" "echo hello" "approve" 1000));
   str "{not json";
   str "  ";
   stringify (Journal.to_json (echo_entry "b" "ls -la" "deny" 2000));
   []].

Definition damaged : Fs.t :=
  Fs.mk {[ str "/tmp/approvals" ]}
        {[ journal_file := Fs.mkfile (join_lines damaged_lines) mode_0o600 ]}.


(** The first request created and not yet registered. *)
Definition created : State :=
  after dir [EvCreate (req "echo hello") 30000 (Some (str "a")) 10 (str "uuid-1")].

(** The three calls of [resolve] of the scenario, as events. *)
Definition resolutions : list event :=
  [EvResolve (str "a") (str "approve") user 1000 no_faults;
   EvResolve (str "b") (str "deny") user 2000 no_faults;
   EvResolve (str "c") (str "approve") user 3000 no_faults].

(** After the resolutions the entry of [a] is evicted. *)
Definition evicted : State := after dir (three_resolved ++ [EvFire 9 20000]).

(** A client that registers the resolved record of [a] again once its
    entry is evicted, and the timer of the new entry. *)
Definition again : list event :=
  [EvFire 9 20000; EvRegister 0 30000; EvFire 13 50000].

(** During the grace period of [a]: a late decision for [a], the eviction
    of [b], and the record of [b] registered again. *)
Definition meanwhile : list event :=
  [EvResolve (str "a") (str "deny") Null 5000 no_faults;
   EvFire 10 20000;
   EvRegister 3 30000].

End Sample.

(** * Properties *)

(** ** The embedding on small inputs *)

Example trim_ex : trim (str "  ab c ") = str "ab c".
Proof. reflexivity. Qed.

Example split_ex :
  split_lines (str "a" ++ [LF] ++ str "b" ++ [LF]) = [str "a"; str "b"; []].
Proof. reflexivity. Qed.

Example stringify_ex :
  let q s := [34%N] ++ s ++ [34%N] in
  stringify (JObject [(str "id", JString (str "a" ++ [34%N] ++ str "b"));
                      (str "n", JNumber 1730); (str "by", JNull)])
  = str "{" ++ q (str "id") ++ str ":" ++ q (str "a\" ++ [34%N] ++ str "b")
    ++ str "," ++ q (str "n") ++ str ":1730," ++ q (str "by") ++ str ":null}".
Proof. vm_compute. reflexivity. Qed.

Example sample_journal :
  let σ := Sample.after Sample.dir Sample.three_resolved in
  getAuditLog (Some 2%Z) None (persistDir σ) (fs σ)
  = (Returns (Journal.to_json <$> drop 1 Sample.known), fs σ).
Proof. vm_compute. reflexivity. Qed.

(** ** Lines *)

Lemma split_lines_nonempty s : split_lines s ≠ [].
Proof.
  destruct s as [|c s]; simpl; [done|].
  destruct (c =? LF)%N; [done|]. by destruct (split_lines s).
Qed.

Lemma split_lines_no_LF s : no_LF s → split_lines s = [s].
Proof.
  induction 1 as [|c s Hc _ IH]; simpl; [done|].
  apply N.eqb_neq in Hc. by rewrite Hc, IH.
Qed.

Lemma split_lines_app s1 s2 :
  split_lines (s1 ++ LF :: s2) = split_lines s1 ++ split_lines s2.
Proof.
  induction s1 as [|c s1 IH]; simpl.
  - done.
  - destruct (c =? LF)%N; [by rewrite IH|].
    rewrite IH. pose proof (split_lines_nonempty s1).
    by destruct (split_lines s1).
Qed.

(** ** What [JSON.stringify] emits *)

(** Induction on a JSON value, with the hypothesis for the elements of an
    array and the members of an object. *)
Lemma json_nested_ind (P : json → Prop) :
  P JNull → (∀ b, P (JBool b)) → (∀ z, P (JNumber z)) → (∀ s, P (JString s)) →
  (∀ l, Forall P l → P (JArray l)) →
  (∀ ms, Forall (λ m, P m.2) ms → P (JObject ms)) →
  ∀ v, P v.
Proof.
  intros Hnull Hbool Hnumber Hstring Harray Hobject.
  fix IH 1. intros [|b|z|s|l|ms].
  - exact Hnull.
  - apply Hbool.
  - apply Hnumber.
  - apply Hstring.
  - apply Harray. induction l as [|x l IHl]; constructor; [apply IH|exact IHl].
  - apply Hobject.
    induction ms as [|[k x] ms IHms]; constructor; [apply IH|exact IHms].
Qed.

Lemma hexDigit_not_LF n : hexDigit n ≠ LF.
Proof. unfold hexDigit, LF. destruct (n <? 10)%N; lia. Qed.

Lemma unicodeEscape_no_LF c : no_LF (unicodeEscape c).
Proof.
  unfold unicodeEscape, no_LF.
  repeat (constructor; [first [apply hexDigit_not_LF | done]|]).
  constructor.
Qed.

Lemma quoteUnit_no_LF c : no_LF (quoteUnit c).
Proof.
  unfold quoteUnit.
  destruct (c =? 8)%N; [by repeat constructor|].
  destruct (c =? 9)%N; [by repeat constructor|].
  destruct (c =? 10)%N eqn:Hc; [by repeat constructor|].
  destruct (c =? 12)%N; [by repeat constructor|].
  destruct (c =? 13)%N; [by repeat constructor|].
  destruct (c =? 34)%N; [by repeat constructor|].
  destruct (c =? 92)%N; [by repeat constructor|].
  destruct (_ || _); [apply unicodeEscape_no_LF|].
  apply N.eqb_neq in Hc. by repeat constructor.
Qed.

Lemma quoteUnits_no_LF s : no_LF (quoteUnits s).
Proof.
  cut (no_LF (quoteUnits s) ∧ ∀ c, no_LF (quoteUnits (c :: s))); [tauto|].
  induction s as [|d s [IH1 IH2]].
  - split; [constructor|]. intros c. simpl.
    destruct (isHighSurrogate c); [apply unicodeEscape_no_LF|].
    rewrite app_nil_r. apply quoteUnit_no_LF.
  - split; [apply IH2|]. intros c.
    change (quoteUnits (c :: d :: s)) with
      (if isHighSurrogate c then
         if isLowSurrogate d then c :: d :: quoteUnits s
         else unicodeEscape c ++ quoteUnits (d :: s)
       else quoteUnit c ++ quoteUnits (d :: s)).
    destruct (isHighSurrogate c) eqn:Hc.
    + destruct (isLowSurrogate d) eqn:Hd.
      * unfold isHighSurrogate, isLowSurrogate, LF in *.
        apply andb_prop in Hc as [Hc _], Hd as [Hd _].
        apply N.leb_le in Hc, Hd.
        unfold no_LF. do 2 (constructor; [unfold LF; lia|]). apply IH1.
      * apply Forall_app. split; [apply unicodeEscape_no_LF|apply IH2].
    + apply Forall_app. split; [apply quoteUnit_no_LF|apply IH2].
Qed.

Lemma quote_no_LF s : no_LF (quote s).
Proof.
  unfold quote. apply Forall_app. split; [by repeat constructor|].
  apply Forall_app. split; [apply quoteUnits_no_LF|by repeat constructor].
Qed.

Lemma digits_no_LF d : no_LF (digits d).
Proof. induction d; simpl; by constructor. Qed.

Lemma numberToString_no_LF z : no_LF (numberToString z).
Proof.
  destruct z; simpl; [by repeat constructor|apply digits_no_LF|].
  constructor; [done|apply digits_no_LF].
Qed.

(** A serialized value never contains a line feed, whatever strings it
    holds: it stays on one line of the journal. *)
Lemma stringify_no_LF v : no_LF (stringify v).
Proof.
  induction v as [|b|z|s|l IH|ms IH] using json_nested_ind.
  - by repeat constructor.
  - destruct b; by repeat constructor.
  - apply numberToString_no_LF.
  - apply quote_no_LF.
  - simpl. constructor; [done|]. apply Forall_app. split; [|by repeat constructor].
    induction IH as [|x l Hx _ IHl]; [constructor|].
    apply Forall_app. split; [done|].
    destruct l; [constructor|]. constructor; [done|]. apply IHl.
  - simpl. constructor; [done|]. apply Forall_app. split; [|by repeat constructor].
    induction IH as [|[k x] ms Hx _ IHms]; [constructor|].
    constructor; [done|].
    apply Forall_app. split.
    { apply Forall_app. split; [apply quoteUnits_no_LF|by repeat constructor]. }
    constructor; [done|].
    apply Forall_app. split; [done|].
    destruct ms; [constructor|]. constructor; [done|]. apply IHms.
Qed.

Lemma stringify_object_shape ms :
  ∃ body, stringify (JObject ms) = 123%N :: body ++ [125%N].
Proof. simpl. eauto. Qed.

Lemma trimStart_keeps c s : isWhiteSpace c = false → trimStart (c :: s) = c :: s.
Proof. intros Hc. simpl. by rewrite Hc. Qed.

Lemma trim_bracketed c d body :
  isWhiteSpace c = false → isWhiteSpace d = false →
  trim (c :: body ++ [d]) = c :: body ++ [d].
Proof.
  intros Hc Hd. unfold trim, trimEnd. rewrite trimStart_keeps by done.
  replace (rev (c :: body ++ [d])) with (d :: rev body ++ [c]).
  - rewrite trimStart_keeps by done.
    rewrite <- (rev_involutive (c :: body ++ [d])). f_equal.
    simpl. by rewrite rev_app_distr.
  - simpl. by rewrite rev_app_distr.
Qed.

Lemma trim_stringify_entry e :
  trim (stringify (Journal.to_json e)) = stringify (Journal.to_json e)
  ∧ truthy (stringify (Journal.to_json e)) = true.
Proof.
  unfold Journal.to_json.
  destruct (stringify_object_shape
    ([(str "id", JString (Journal.id e)); (str "command", JString (Journal.command e))]
     ++ match Journal.decision e with
        | Some d => [(str "decision", JString d)]
        | None => []
        end
     ++ Journal.string_member "resolvedBy" (Journal.resolvedBy e)
     ++ match Journal.resolvedAtMs e with
        | Some t => [(str "resolvedAtMs", JNumber t)]
        | None => []
        end
     ++ Journal.string_member "requestedByDeviceId" (Journal.requestedByDeviceId e)))
    as [body ->].
  split; [by apply trim_bracketed|done].
Qed.

(** ** The journal file *)

Section JournalFile.
Context `{Platform}.

Lemma read_entries_omap lines entries :
  read_entries lines entries = entries ++ omap parse_line lines.
Proof.
  revert entries. induction lines as [|line rest IH]; intros entries; simpl.
  - by rewrite app_nil_r.
  - unfold parse_line. destruct (truthy (trim line)); [|apply IH].
    destruct (JSON_parse (trim line)); [|apply IH].
    rewrite IH. by rewrite <- app_assoc.
Qed.

Lemma entries_of_app text1 text2 :
  entries_of (text1 ++ LF :: text2) = entries_of text1 ++ entries_of text2.
Proof.
  unfold entries_of. rewrite split_lines_app, !read_entries_omap. simpl.
  apply omap_app.
Qed.

Lemma entries_of_nil : entries_of [] = [].
Proof. done. Qed.

Lemma entries_of_one_line s :
  no_LF s → entries_of s = option_list (parse_line s).
Proof.
  intros Hs. unfold entries_of. rewrite split_lines_no_LF by done.
  rewrite read_entries_omap. simpl. by destruct (parse_line s).
Qed.

Lemma parse_line_entry e :
  parse_line (stringify (Journal.to_json e))
  = JSON_parse (stringify (Journal.to_json e)).
Proof.
  unfold parse_line. destruct (trim_stringify_entry e) as [-> ->]. done.
Qed.

Lemma entries_of_journal_line e rest :
  entries_of (journal_line e ++ rest)
  = option_list (JSON_parse (stringify (Journal.to_json e))) ++ entries_of rest.
Proof.
  replace (journal_line e ++ rest)
    with (stringify (Journal.to_json e) ++ LF :: rest)
    by (unfold journal_line; by rewrite <- app_assoc).
  rewrite entries_of_app, entries_of_one_line by apply stringify_no_LF.
  by rewrite parse_line_entry.
Qed.

End JournalFile.

(** ** The states a method leaves behind *)

Section Outcomes.
Context `{Platform}.

Lemma appendJournalEntry_returns faults pd r fs0 :
  (appendJournalEntry faults pd r fs0).1 = Returns ().
Proof.
  unfold appendJournalEntry. destruct (usable (journalPath pd)); [|done].
  unfold try_catch, io_then, io_bind, mkdirSync, appendFileSync, io_ret.
  destruct (mkdir_fault faults) as [[made e]|]; [done|].
  case_decide; by destruct (append_fault faults) as [[e|torn e]|].
Qed.

Lemma resolve_success recordId decision resolvedBy now faults σ p :
  pending σ !! recordId = Some p →
  Approval.resolvedAtMs (deref σ (Pending.record p)) = None →
  resolve recordId decision resolvedBy now faults σ
  = (Returns true,
     settled_state recordId p (Some decision) (orNull resolvedBy) now
       (appendJournalEntry faults (persistDir σ)
          (Approval.stamp now (Some decision) (orNull resolvedBy)
                          (deref σ (Pending.record p))) (fs σ)).2 σ).
Proof.
  intros Hp Hr. unfold resolve. rewrite Hp, Hr.
  unfold deref at 2 3. simpl. rewrite lookup_total_insert_eq.
  pose proof (appendJournalEntry_returns faults (persistDir σ)
    (Approval.stamp now (Some decision) (orNull resolvedBy)
       (deref σ (Pending.record p))) (fs σ)) as Hret.
  unfold deref in *.
  destruct (appendJournalEntry _ _ _ _) as [[[]|e] fs']; simpl in *; [|done].
  done.
Qed.

Lemma resolve_unknown recordId decision resolvedBy now faults σ :
  pending σ !! recordId = None →
  resolve recordId decision resolvedBy now faults σ = (Returns false, σ).
Proof. intros Hp. unfold resolve. by rewrite Hp. Qed.

Lemma resolve_resolved recordId decision resolvedBy now faults σ p :
  pending σ !! recordId = Some p →
  is_Some (Approval.resolvedAtMs (deref σ (Pending.record p))) →
  resolve recordId decision resolvedBy now faults σ = (Returns false, σ).
Proof. intros Hp [t Ht]. unfold resolve. by rewrite Hp, Ht. Qed.

Lemma fire_expire t now σ entry d :
  timers σ !! t = Some (mkTimer (Expire entry) d) →
  fire t now σ =
    mkState (persistDir σ) (pending σ)
      (<[Pending.record entry :=
           Approval.stamp now None Null (deref σ (Pending.record entry))]> (heap σ))
      (<[next σ := mkTimer (Evict (Approval.id (deref σ (Pending.record entry))) entry)
                           RESOLVED_ENTRY_GRACE_MS]>
         (delete t (timers σ)))
      (<[Pending.promise entry := settlements σ (Pending.promise entry) ++ [None]]>
         (promises σ))
      (S (next σ)) (fs σ).
Proof.
  intros Ht. unfold fire. rewrite Ht. simpl.
  unfold setTimeout, settle, store, clearTimeout, deref, settlements.
  simpl. by rewrite lookup_total_insert_eq.
Qed.

Lemma fire_evict t now σ recordId entry d :
  timers σ !! t = Some (mkTimer (Evict recordId entry) d) →
  fire t now σ =
    mkState (persistDir σ)
      (if decide (pending σ !! recordId = Some entry)
       then delete recordId (pending σ) else pending σ)
      (heap σ) (delete t (timers σ)) (promises σ) (next σ) (fs σ).
Proof.
  intros Ht. unfold fire. rewrite Ht. simpl.
  by destruct (decide (pending σ !! recordId = Some entry)).
Qed.

Lemma register_new l timeoutMs σ :
  pending σ !! Approval.id (deref σ l) = None →
  register l timeoutMs σ = (Returns (next σ), registered_state l timeoutMs σ).
Proof. intros Hp. unfold register. by rewrite Hp. Qed.

Lemma register_existing l timeoutMs σ existing :
  pending σ !! Approval.id (deref σ l) = Some existing →
  register l timeoutMs σ =
    (match Approval.resolvedAtMs (deref σ (Pending.record existing)) with
     | None => Returns (Pending.promise existing)
     | Some _ => Throws (already_resolved (Approval.id (deref σ l)))
     end, σ).
Proof.
  intros Hp. unfold register. rewrite Hp.
  by destruct (Approval.resolvedAtMs (deref σ (Pending.record existing))).
Qed.

End Outcomes.

(** ** Invariants of the reachable states *)

Lemma wf_init pd fs0 : wf (init pd fs0).
Proof.
  split; simpl.
  - intros l [x Hx]. by rewrite lookup_empty in Hx.
  - intros l [x Hx]. by rewrite lookup_empty in Hx.
  - intros l [x Hx]. by rewrite lookup_empty in Hx.
  - intros k e Hk. by rewrite lookup_empty in Hk.
  - intros t e d Ht. by rewrite lookup_empty in Ht.
  - intros t k e d Ht. by rewrite lookup_empty in Ht.
  - intros p. unfold settlements. simpl. rewrite lookup_total_empty. simpl. lia.
Qed.

Lemma stamp_id now d by_ r : Approval.id (Approval.stamp now d by_ r) = Approval.id r.
Proof. done. Qed.

Lemma wf_alloc r σ : wf σ → wf (alloc r σ).2.
Proof.
  intros [Hh Ht Hp Hpe Hex Hev Hs]. split; simpl.
  - intros l [x Hl]. destruct (decide (l = next σ)) as [->|Hne]; [lia|].
    rewrite lookup_insert_ne in Hl by done. specialize (Hh l (mk_is_Some _ _ Hl)). lia.
  - intros t Hin. specialize (Ht t Hin). lia.
  - intros p Hin. specialize (Hp p Hin). lia.
  - intros k e Hk. destruct (Hpe k e Hk) as (H1 & H2 & H3 & H4 & H5).
    unfold deref, settlements in *. simpl.
    rewrite lookup_total_insert_ne by lia. repeat split; [lia|done|done|lia|done].
  - intros t e d Hin. destruct (Hex t e d Hin) as [H1 H2].
    destruct (Hpe _ _ H2) as (H3 & _).
    unfold deref in *. simpl. by rewrite lookup_total_insert_ne by lia.
  - intros t k e d Hin. destruct (Hev t k e d Hin). split; [lia|done].
  - done.
Qed.

Section Preservation.
Context `{Platform}.

(** The resolution transition keeps the invariants, when it is applied to
    a tracked entry whose expiry timer is still armed. *)
Lemma wf_settled_state k e v by_ now fs' σ d :
  wf σ →
  pending σ !! k = Some e →
  timers σ !! Pending.timer e = Some (mkTimer (Expire e) d) →
  wf (settled_state k e v by_ now fs' σ).
Proof.
  intros [Hh Ht Hp Hpe Hex Hev Hs] Hk Harmed.
  destruct (Hpe k e Hk) as (Hl & Hid & Htp & Htn & Hdisj).
  assert (settlements σ (Pending.promise e) = []) as Hlog.
  { destruct Hdisj as [[_ ?]|[Hnone _]]; [done|congruence]. }
  unfold settlements, deref in *.
  split; unfold settled_state, settlements, deref;
    cbn [persistDir pending heap timers promises next fs].
  - intros l [x Hx]. destruct (decide (l = Pending.record e)) as [->|Hne]; [lia|].
    rewrite lookup_insert_ne in Hx by done.
    specialize (Hh l (mk_is_Some _ _ Hx)). lia.
  - intros t [x Hx]. destruct (decide (t = next σ)) as [->|Hne]; [lia|].
    rewrite lookup_insert_ne in Hx by done.
    apply lookup_delete_Some in Hx as [_ Hx].
    specialize (Ht t (mk_is_Some _ _ Hx)). lia.
  - intros p [x Hx]. destruct (decide (p = Pending.promise e)) as [->|Hne]; [lia|].
    rewrite lookup_insert_ne in Hx by done.
    specialize (Hp p (mk_is_Some _ _ Hx)). lia.
  - intros k' e' Hk'.
    destruct (Hpe k' e' Hk') as (Hl' & Hid' & Htp' & Htn' & Hdisj').
    split; [lia|]. split.
    { destruct (decide (Pending.record e = Pending.record e')) as [Heq|Hne].
      - by rewrite Heq, lookup_total_insert_eq.
      - by rewrite lookup_total_insert_ne. }
    split; [done|]. split; [lia|].
    destruct (decide (k' = k)) as [->|Hkne].
    + assert (e' = e) as -> by congruence.
      right. split; [|split].
      * rewrite lookup_insert_ne by lia. apply lookup_delete_eq.
      * exists v. by rewrite lookup_total_insert_eq, Hlog.
      * rewrite lookup_total_insert_eq. simpl. eauto.
    + assert (Pending.record e ≠ Pending.record e') as Hrne.
      { intros Heq. rewrite <- Heq in Hid'. congruence. }
      assert (Pending.timer e' ≠ Pending.timer e) as Htne.
      { intros Heq. rewrite Heq in Hdisj'.
        destruct Hdisj' as [[[d' Hd'] _]|[Hnone _]]; [|congruence].
        rewrite Harmed in Hd'. injection Hd' as -> _. congruence. }
      rewrite (lookup_total_insert_ne (promises σ)) by lia.
      rewrite (lookup_total_insert_ne (heap σ)) by done.
      rewrite lookup_insert_ne by lia. rewrite lookup_delete_ne by done. done.
  - intros t e' d' Ht'.
    destruct (decide (t = next σ)) as [->|Hne].
    { rewrite lookup_insert_eq in Ht'. done. }
    rewrite lookup_insert_ne in Ht' by done.
    apply lookup_delete_Some in Ht' as [_ Ht'].
    destruct (Hex t e' d' Ht') as [Ht1 Ht2]. split; [done|].
    replace (Approval.id (<[Pending.record e :=
               Approval.stamp now v by_ (heap σ !!! Pending.record e)]> (heap σ)
             !!! Pending.record e'))
      with (Approval.id (heap σ !!! Pending.record e')); [done|].
    destruct (decide (Pending.record e = Pending.record e')) as [Heq|Hne'].
    + by rewrite Heq, lookup_total_insert_eq.
    + by rewrite lookup_total_insert_ne.
  - intros t k' e' d' Ht'.
    destruct (decide (t = next σ)) as [->|Hne].
    + rewrite lookup_insert_eq in Ht'. injection Ht' as -> -> _.
      split; [lia|]. rewrite lookup_insert_ne by lia. apply lookup_delete_eq.
    + rewrite lookup_insert_ne in Ht' by done.
      apply lookup_delete_Some in Ht' as [_ Ht'].
      destruct (Hev t k' e' d' Ht') as [Ht1 Ht2]. split; [lia|].
      rewrite lookup_insert_ne by lia.
      apply lookup_delete_None. by right.
  - intros p.
    destruct (decide (p = Pending.promise e)) as [->|Hne].
    + rewrite lookup_total_insert_eq, Hlog. simpl. lia.
    + rewrite lookup_total_insert_ne by done. apply Hs.
Qed.

Lemma wf_registered_state l timeoutMs σ :
  wf σ → l < next σ →
  pending σ !! Approval.id (deref σ l) = None →
  wf (registered_state l timeoutMs σ).
Proof.
  intros [Hh Ht Hp Hpe Hex Hev Hs] Hl Hfree.
  unfold settlements, deref in *.
  split; unfold registered_state, settlements, deref;
    cbn [persistDir pending heap timers promises next fs].
  - intros l' Hx. specialize (Hh l' Hx). lia.
  - intros t [x Hx]. destruct (decide (t = S (next σ))) as [->|Hne]; [lia|].
    rewrite lookup_insert_ne in Hx by done.
    specialize (Ht t (mk_is_Some _ _ Hx)). lia.
  - intros p [x Hx]. destruct (decide (p = next σ)) as [->|Hne]; [lia|].
    rewrite lookup_insert_ne in Hx by done.
    specialize (Hp p (mk_is_Some _ _ Hx)). lia.
  - intros k e Hk.
    destruct (decide (k = Approval.id (heap σ !!! l))) as [->|Hne].
    + rewrite lookup_insert_eq in Hk. injection Hk as <-. simpl.
      split; [lia|]. split; [done|]. split; [done|]. split; [lia|].
      left. rewrite lookup_insert_eq, lookup_total_insert_eq. eauto.
    + rewrite lookup_insert_ne in Hk by done.
      destruct (Hpe k e Hk) as (Hl' & Hid' & Htp' & Htn' & Hdisj').
      split; [lia|]. split; [done|]. split; [done|]. split; [lia|].
      rewrite lookup_insert_ne by lia.
      rewrite lookup_total_insert_ne by lia. done.
  - intros t e d Ht'.
    destruct (decide (t = S (next σ))) as [->|Hne].
    + rewrite lookup_insert_eq in Ht'. injection Ht' as <- _. simpl.
      split; [done|]. apply lookup_insert_eq.
    + rewrite lookup_insert_ne in Ht' by done.
      destruct (Hex t e d Ht') as [Ht1 Ht2]. split; [done|].
      rewrite lookup_insert_ne; [done|]. congruence.
  - intros t k e d Ht'.
    destruct (decide (t = S (next σ))) as [->|Hne].
    { rewrite lookup_insert_eq in Ht'. done. }
    rewrite lookup_insert_ne in Ht' by done.
    destruct (Hev t k e d Ht') as [Ht1 Ht2]. split; [lia|].
    by rewrite lookup_insert_ne by lia.
  - intros p. destruct (decide (p = next σ)) as [->|Hne].
    + rewrite lookup_total_insert_eq. simpl. lia.
    + rewrite lookup_total_insert_ne by done. apply Hs.
Qed.

Lemma wf_register l timeoutMs σ :
  wf σ → l < next σ → wf (register l timeoutMs σ).2.
Proof.
  intros Hwf Hl.
  destruct (pending σ !! Approval.id (deref σ l)) as [existing|] eqn:Hp.
  - by rewrite (register_existing _ _ _ _ Hp).
  - rewrite (register_new _ _ _ Hp). by apply wf_registered_state.
Qed.

Lemma wf_resolve recordId decision resolvedBy now faults σ :
  wf σ → wf (resolve recordId decision resolvedBy now faults σ).2.
Proof.
  intros Hwf.
  destruct (pending σ !! recordId) as [p|] eqn:Hp;
    [|by rewrite resolve_unknown].
  destruct (Approval.resolvedAtMs (deref σ (Pending.record p))) as [t|] eqn:Hr.
  { by rewrite (resolve_resolved _ _ _ _ _ _ p) by eauto. }
  rewrite (resolve_success _ _ _ _ _ _ p) by done. simpl.
  destruct (wf_pending _ Hwf _ _ Hp) as (_ & _ & _ & _ & [[[d Hd] _]|(_ & _ & [? ?])]);
    [|congruence].
  by eapply wf_settled_state.
Qed.

Lemma wf_fire t now σ : wf σ → wf (fire t now σ).
Proof.
  intros Hwf.
  destruct (timers σ !! t) as [[[e|k e] d]|] eqn:Ht.
  - rewrite (fire_expire _ _ _ _ _ Ht).
    destruct (wf_expire _ Hwf _ _ _ Ht) as [<- Hp].
    by apply (wf_settled_state _ e None Null now (fs σ) σ d).
  - rewrite (fire_evict _ _ _ _ _ _ Ht).
    destruct Hwf as [Hh Htm Hp Hpe Hex Hev Hs].
    destruct (Hev _ _ _ _ Ht) as [Hlt Hgone].
    unfold settlements, deref in *.
    split; unfold settlements, deref;
      cbn [persistDir pending heap timers promises next fs]; [done| |done| | | |done].
    + intros t' [x Hx]. apply lookup_delete_Some in Hx as [_ Hx]. eauto.
    + intros k' e' Hk'.
      assert (pending σ !! k' = Some e') as Hold.
      { case_decide; [|done]. by apply lookup_delete_Some in Hk' as [_ ?]. }
      destruct (Hpe k' e' Hold) as (Hl' & Hid' & Htp' & Htn' & Hdisj').
      do 4 (split; [done|]).
      destruct Hdisj' as [[[d' Hd'] Hlog]|(Hnone & Hlog & Hres)].
      * left. split; [|done]. exists d'. rewrite lookup_delete_ne; [done|].
        intros Heq. rewrite <- Heq in Hd'. congruence.
      * right. split; [|done]. apply lookup_delete_None. by right.
    + intros t' e' d' Ht'. apply lookup_delete_Some in Ht' as [_ Ht'].
      destruct (Hex _ _ _ Ht') as [Ht1 Ht2]. split; [done|].
      case_decide as Hc; [|done].
      rewrite lookup_delete_ne; [done|].
      intros ->. rewrite Hc in Ht2. injection Ht2 as ->.
      rewrite Ht1 in Hgone. congruence.
    + intros t' k' e' d' Ht'. apply lookup_delete_Some in Ht' as [_ Ht'].
      destruct (Hev _ _ _ _ Ht') as [Ht1 Ht2]. split; [done|].
      apply lookup_delete_None. by right.
  - unfold fire. by rewrite Ht.
Qed.

Lemma wf_exec ev σ σ' : wf σ → exec ev σ = Some σ' → wf σ'.
Proof.
  intros Hwf Hex. destruct ev; simpl in Hex.
  - injection Hex as <-. by apply wf_alloc.
  - injection Hex as <-. by apply wf_alloc.
  - case_decide as Hl; [|done]. injection Hex as <-.
    apply wf_register; [done|]. by apply (wf_heap _ Hwf).
  - injection Hex as <-. by apply wf_resolve.
  - case_decide; [|done]. injection Hex as <-. by apply wf_fire.
Qed.

Lemma reachable_wf σ : reachable σ → wf σ.
Proof.
  induction 1 as [pd fs0|σ ev σ' _ IH Hex]; [apply wf_init|by eapply wf_exec].
Qed.

Lemma reachable_run tr σ σ' : reachable σ → run tr σ = Some σ' → reachable σ'.
Proof.
  revert σ. induction tr as [|ev tr IH]; intros σ Hr Hrun; simpl in Hrun.
  - by injection Hrun as <-.
  - destruct (exec ev σ) as [σ1|] eqn:Hex; [|done].
    apply (IH σ1); [|done]. by eapply reachable_step.
Qed.

(** Whatever the client does, no step clears the resolution marker of a
    record. *)
Lemma exec_keeps_marker ev σ σ' l :
  wf σ → exec ev σ = Some σ' →
  is_Some (Approval.resolvedAtMs (deref σ l)) →
  is_Some (Approval.resolvedAtMs (deref σ' l)).
Proof.
  intros Hwf Hex [at_ms Hl].
  assert (l < next σ) as Hlt.
  { apply (wf_heap _ Hwf). destruct (heap σ !! l) eqn:Hh; [eauto|].
    unfold deref in Hl. by rewrite lookup_total_alt, Hh in Hl. }
  assert (∀ r now v by_,
            is_Some (Approval.resolvedAtMs
                       (<[r := Approval.stamp now v by_ (heap σ !!! r)]> (heap σ) !!! l)))
    as Hstamp.
  { intros r now v by_. destruct (decide (r = l)) as [->|Hne].
    - rewrite lookup_total_insert_eq. simpl. eauto.
    - rewrite lookup_total_insert_ne by done. unfold deref in Hl. eauto. }
  destruct ev; simpl in Hex.
  - injection Hex as <-. unfold deref. simpl.
    rewrite lookup_total_insert_ne by lia. unfold deref in Hl. eauto.
  - injection Hex as <-. unfold deref. simpl.
    rewrite lookup_total_insert_ne by lia. unfold deref in Hl. eauto.
  - case_decide; [|done]. injection Hex as <-.
    destruct (pending σ !! Approval.id (deref σ l0)) as [existing|] eqn:Hp.
    + rewrite (register_existing _ _ _ _ Hp). simpl. eauto.
    + rewrite (register_new _ _ _ Hp). unfold deref in *. simpl. eauto.
  - injection Hex as <-.
    destruct (pending σ !! recordId) as [p|] eqn:Hp;
      [|rewrite resolve_unknown by done; simpl; eauto].
    destruct (Approval.resolvedAtMs (deref σ (Pending.record p))) as [t'|] eqn:Hr.
    { rewrite (resolve_resolved _ _ _ _ _ _ p) by eauto. simpl. eauto. }
    rewrite (resolve_success _ _ _ _ _ _ p) by done. apply Hstamp.
  - case_decide; [|done]. injection Hex as <-.
    destruct (timers σ !! t) as [[[e|k e] d]|] eqn:Ht.
    + rewrite (fire_expire _ _ _ _ _ Ht). apply Hstamp.
    + rewrite (fire_evict _ _ _ _ _ _ Ht). unfold deref in *. simpl. eauto.
    + unfold fire. rewrite Ht. eauto.
Qed.

End Preservation.

(** ** Clients that register unresolved records *)

Section Orderly.
Context `{Platform}.

Lemma timers_sound_settled_state k e v by_ now fs' σ :
  wf σ → timers_sound σ → pending σ !! k = Some e →
  timers_sound (settled_state k e v by_ now fs' σ).
Proof.
  intros Hwf Hts Hk t e' d. unfold settled_state, deref.
  cbn [persistDir pending heap timers promises next fs]. intros Ht.
  destruct (decide (t = next σ)) as [->|Hne].
  { by rewrite lookup_insert_eq in Ht. }
  rewrite lookup_insert_ne in Ht by done.
  apply lookup_delete_Some in Ht as [Htne Ht].
  destruct (wf_expire _ Hwf _ _ _ Ht) as [Ht1 Ht2].
  destruct (wf_pending _ Hwf _ _ Hk) as (_ & Hid & _).
  rewrite lookup_total_insert_ne; [by apply (Hts t e' d)|].
  intros Heq. rewrite <- Heq, Hid, Hk in Ht2. injection Ht2 as ->. done.
Qed.

Lemma orderly_inv σ : orderly σ → wf σ ∧ timers_sound σ.
Proof.
  induction 1 as [pd fs0|σ ev σ' _ [Hwf Hts] Hreg Hex].
  { split; [apply wf_init|]. intros t e d Ht. simpl in Ht.
    by rewrite lookup_empty in Ht. }
  split; [by eapply wf_exec|].
  destruct ev; simpl in Hex, Hreg.
  - injection Hex as <-. intros t e d Ht. simpl in Ht.
    destruct (wf_expire _ Hwf _ _ _ Ht) as [_ Hp].
    destruct (wf_pending _ Hwf _ _ Hp) as (Hl & _).
    unfold deref. simpl. rewrite lookup_total_insert_ne by lia. by eapply Hts.
  - injection Hex as <-. intros t e d Ht. simpl in Ht.
    destruct (wf_expire _ Hwf _ _ _ Ht) as [_ Hp].
    destruct (wf_pending _ Hwf _ _ Hp) as (Hl & _).
    unfold deref. simpl. rewrite lookup_total_insert_ne by lia. by eapply Hts.
  - case_decide; [|done]. injection Hex as <-.
    destruct (pending σ !! Approval.id (deref σ l)) as [existing|] eqn:Hp.
    { by rewrite (register_existing _ _ _ _ Hp). }
    rewrite (register_new _ _ _ Hp). intros t e d. unfold registered_state, deref.
    cbn [persistDir pending heap timers promises next fs snd]. intros Ht.
    destruct (decide (t = S (next σ))) as [->|Hne].
    + rewrite lookup_insert_eq in Ht. injection Ht as <- _. by apply Hreg.
    + rewrite lookup_insert_ne in Ht by done. by eapply Hts.
  - injection Hex as <-.
    destruct (pending σ !! recordId) as [p|] eqn:Hp;
      [|by rewrite resolve_unknown].
    destruct (Approval.resolvedAtMs (deref σ (Pending.record p))) as [t|] eqn:Hr.
    { by rewrite (resolve_resolved _ _ _ _ _ _ p) by eauto. }
    rewrite (resolve_success _ _ _ _ _ _ p) by done.
    by apply timers_sound_settled_state.
  - case_decide; [|done]. injection Hex as <-.
    destruct (timers σ !! t) as [[[e|k e] d]|] eqn:Ht.
    + rewrite (fire_expire _ _ _ _ _ Ht).
      destruct (wf_expire _ Hwf _ _ _ Ht) as [<- Hp].
      by apply (timers_sound_settled_state _ e None Null now (fs σ) σ).
    + rewrite (fire_evict _ _ _ _ _ _ Ht). intros t' e' d'. unfold deref.
      cbn [persistDir pending heap timers promises next fs]. intros Ht'.
      apply lookup_delete_Some in Ht' as [_ Ht']. by eapply Hts.
    + unfold fire. by rewrite Ht.
Qed.

Lemma orderly_reachable σ : orderly σ → reachable σ.
Proof. induction 1; [constructor|by eapply reachable_step]. Qed.

Lemma orderly_run tr σ σ' : orderly σ → run_orderly tr σ = Some σ' → orderly σ'.
Proof.
  revert σ. induction tr as [|ev tr IH]; intros σ Ho Hrun; simpl in Hrun.
  - by injection Hrun as <-.
  - case_decide; [|done].
    destruct (exec ev σ) as [σ1|] eqn:Hex; [|done].
    apply (IH σ1); [|done]. by eapply orderly_step.
Qed.

(** One step leaves every resolved record as it is. *)
Lemma exec_keeps_resolved ev σ σ' l t :
  orderly σ → registers_unresolved ev σ → exec ev σ = Some σ' →
  Approval.resolvedAtMs (deref σ l) = Some t →
  deref σ' l = deref σ l.
Proof.
  intros Ho Hreg Hex Hl. destruct (orderly_inv _ Ho) as [Hwf Hts].
  assert (is_Some (heap σ !! l)) as Hlive.
  { destruct (heap σ !! l) eqn:Hh; [eauto|].
    unfold deref in Hl. rewrite lookup_total_alt, Hh in Hl. done. }
  pose proof (wf_heap _ Hwf _ Hlive) as Hlt.
  destruct ev; simpl in Hex.
  - injection Hex as <-. unfold deref. simpl. apply lookup_total_insert_ne. lia.
  - injection Hex as <-. unfold deref. simpl. apply lookup_total_insert_ne. lia.
  - case_decide; [|done]. injection Hex as <-.
    destruct (pending σ !! Approval.id (deref σ l0)) as [existing|] eqn:Hp.
    + by rewrite (register_existing _ _ _ _ Hp).
    + by rewrite (register_new _ _ _ Hp).
  - injection Hex as <-.
    destruct (pending σ !! recordId) as [p|] eqn:Hp;
      [|by rewrite resolve_unknown].
    destruct (Approval.resolvedAtMs (deref σ (Pending.record p))) as [t'|] eqn:Hr.
    { by rewrite (resolve_resolved _ _ _ _ _ _ p) by eauto. }
    rewrite (resolve_success _ _ _ _ _ _ p) by done.
    unfold deref, settled_state. simpl. apply lookup_total_insert_ne.
    intros Heq. rewrite Heq in Hr. congruence.
  - case_decide; [|done]. injection Hex as <-.
    destruct (timers σ !! t0) as [[[e|k e] d]|] eqn:Ht.
    + rewrite (fire_expire _ _ _ _ _ Ht).
      unfold deref. simpl. apply lookup_total_insert_ne.
      intros Heq. specialize (Hts _ _ _ Ht). rewrite Heq in Hts. congruence.
    + by rewrite (fire_evict _ _ _ _ _ _ Ht).
    + unfold fire. by rewrite Ht.
Qed.

(** One step only adds to the calls a promise has received. *)
Lemma exec_settlements ev σ σ' p :
  wf σ → exec ev σ = Some σ' →
  settlements σ p `prefix_of` settlements σ' p.
Proof.
  intros Hwf Hex. destruct ev; simpl in Hex.
  - by injection Hex as <-.
  - by injection Hex as <-.
  - case_decide; [|done]. injection Hex as <-.
    destruct (pending σ !! Approval.id (deref σ l)) as [existing|] eqn:Hp.
    + by rewrite (register_existing _ _ _ _ Hp).
    + rewrite (register_new _ _ _ Hp). unfold settlements, registered_state. simpl.
      destruct (decide (p = next σ)) as [->|Hne].
      * rewrite lookup_total_insert_eq, lookup_total_alt.
        destruct (promises σ !! next σ) eqn:Hn; [|done].
        pose proof (wf_promises _ Hwf _ (mk_is_Some _ _ Hn)). lia.
      * by rewrite lookup_total_insert_ne.
  - injection Hex as <-.
    destruct (pending σ !! recordId) as [e|] eqn:Hp;
      [|by rewrite resolve_unknown].
    destruct (Approval.resolvedAtMs (deref σ (Pending.record e))) as [t'|] eqn:Hr.
    { by rewrite (resolve_resolved _ _ _ _ _ _ e) by eauto. }
    rewrite (resolve_success _ _ _ _ _ _ e) by done.
    unfold settlements, settled_state. simpl.
    destruct (decide (p = Pending.promise e)) as [->|Hne].
    * rewrite lookup_total_insert_eq. by apply prefix_app_r.
    * by rewrite lookup_total_insert_ne.
  - case_decide; [|done]. injection Hex as <-.
    destruct (timers σ !! t) as [[[e|k e] d]|] eqn:Ht.
    + rewrite (fire_expire _ _ _ _ _ Ht). unfold settlements. simpl.
      destruct (decide (p = Pending.promise e)) as [->|Hne].
      * rewrite lookup_total_insert_eq. by apply prefix_app_r.
      * by rewrite lookup_total_insert_ne.
    + by rewrite (fire_evict _ _ _ _ _ _ Ht).
    + unfold fire. by rewrite Ht.
Qed.

End Orderly.

(** * The claims of the specification *)

(** ** create *)

Lemma trim_falsy s : truthy s = false → trim s = [].
Proof. by destruct s. Qed.






(** ** resolve that fails *)

Section Claims.
Context `{Platform}.

(** C10.  When [resolve] returns [false], which it does only for an id
    that is not tracked or whose record is already resolved, it leaves the
    whole state as it was: the registry maps the same ids to the same
    entries, every record keeps its fields, no timer is cancelled or
    created, no promise is touched and nothing is written to the file
    system. *)
Theorem resolve_false_is_noop recordId decision resolvedBy now faults σ σ' :
  resolve recordId decision resolvedBy now faults σ = (Returns false, σ') →
  σ' = σ
  ∧ pending σ' = pending σ ∧ heap σ' = heap σ ∧ timers σ' = timers σ
  ∧ promises σ' = promises σ ∧ fs σ' = fs σ
  ∧ (pending σ !! recordId = None
     ∨ ∃ p, pending σ !! recordId = Some p
            ∧ is_Some (Approval.resolvedAtMs (deref σ (Pending.record p)))).
Proof.
  intros Hres.
  destruct (pending σ !! recordId) as [p|] eqn:Hp.
  - destruct (Approval.resolvedAtMs (deref σ (Pending.record p))) as [t|] eqn:Hr.
    + rewrite (resolve_resolved _ _ _ _ _ _ p) in Hres by eauto.
      injection Hres as <-. repeat split; try done. right. eauto.
    + rewrite (resolve_success _ _ _ _ _ _ p) in Hres by done. done.
  - rewrite resolve_unknown in Hres by done.
    injection Hres as <-. repeat split; try done. by left.
Qed.

(** ** register *)

(** C4.  Registering an id that is tracked and not resolved returns the
    promise of the existing entry and changes nothing, so no second timer
    is armed; registering an id that is tracked and resolved throws the
    already-resolved error and changes nothing either. *)
Theorem register_tracked_id l timeoutMs σ existing :
  pending σ !! Approval.id (deref σ l) = Some existing →
  (Approval.resolvedAtMs (deref σ (Pending.record existing)) = None →
     register l timeoutMs σ = (Returns (Pending.promise existing), σ)
     ∧ awaitDecision (Approval.id (deref σ l)) σ = Some (Pending.promise existing)
     ∧ timers (register l timeoutMs σ).2 = timers σ)
  ∧ (is_Some (Approval.resolvedAtMs (deref σ (Pending.record existing))) →
     register l timeoutMs σ
     = (Throws (Error (str "approval id '" ++ Approval.id (deref σ l)
                       ++ str "' already resolved")), σ)).
Proof.
  intros Hp. rewrite (register_existing _ _ _ _ Hp). split.
  - intros ->. unfold awaitDecision. by rewrite Hp.
  - by intros [t ->].
Qed.

(** ** The journal *)

Lemma loadJournal_no_fault pd fs0 jp :
  usable (journalPath pd) = Some jp →
  loadJournal None pd fs0 = (Returns (entries_of (journal_text fs0 jp)), fs0).
Proof.
  intros Hjp. unfold loadJournal, journal_text. rewrite Hjp.
  unfold try_catch, io_bind, readFileSync, io_ret.
  by destruct (Fs.files fs0 !! jp).
Qed.

Lemma split_join_lines lines :
  lines ≠ [] → Forall no_LF lines → split_lines (join_lines lines) = lines.
Proof.
  intros Hne Hall. induction Hall as [|line rest Hline Hrest IH]; [done|].
  destruct rest as [|line' rest'].
  - simpl. by apply split_lines_no_LF.
  - change (join_lines (line :: line' :: rest'))
      with (line ++ LF :: join_lines (line' :: rest')).
    rewrite split_lines_app, split_lines_no_LF, IH by done. done.
Qed.

(** C5.  [loadJournal] returns the empty list when no durable directory is
    configured and when the log file is absent (the read fails with
    ENOENT); every other read failure is thrown to the caller.  Of a file
    that it can read, whose text is some lines joined by line feeds, it
    returns, in the order of the lines, what [JSON.parse] makes of each
    line that is not blank, trimmed: a line that is blank after trimming
    and a line that does not parse contribute nothing, and the entries of
    the lines before and after such a line are what they are without
    it. *)
Theorem loadJournal_spec (pd : option jsstring) (fs0 : Fs.t) :
  let contribution (line : jsstring) :=
    match trim line with
    | [] => None
    | trimmed => JSON_parse trimmed
    end in
  (usable (journalPath pd) = None →
     ∀ fault, loadJournal fault pd fs0 = (Returns [], fs0))
  ∧ (∀ jp, usable (journalPath pd) = Some jp →
       (Fs.files fs0 !! jp = None → loadJournal None pd fs0 = (Returns [], fs0))
       ∧ loadJournal (Some (ErrnoException (str "ENOENT"))) pd fs0 = (Returns [], fs0)
       ∧ (∀ e, e ≠ ErrnoException (str "ENOENT") →
            loadJournal (Some e) pd fs0 = (Throws e, fs0))
       ∧ (∀ f lines,
            Fs.files fs0 !! jp = Some f →
            lines ≠ [] → Forall no_LF lines → Fs.data f = join_lines lines →
            loadJournal None pd fs0 = (Returns (omap contribution lines), fs0)
            ∧ ∀ before bad after,
                lines = before ++ bad :: after →
                trim bad = [] ∨ JSON_parse (trim bad) = None →
                loadJournal None pd fs0
                = (Returns (omap contribution before ++ omap contribution after),
                   fs0))).
Proof.
  cbv zeta.
  assert (∀ line, parse_line line
                  = match trim line with [] => None | trimmed => JSON_parse trimmed end)
    as Hline.
  { intros line. unfold parse_line. by destruct (trim line). }
  split.
  { intros Hjp fault. unfold loadJournal. by rewrite Hjp. }
  intros jp Hjp. split; [|split; [|split]].
  - intros Hf. rewrite (loadJournal_no_fault _ _ jp) by done.
    unfold journal_text. by rewrite Hf.
  - unfold loadJournal. rewrite Hjp. done.
  - intros e He. unfold loadJournal. rewrite Hjp.
    unfold try_catch, io_bind, readFileSync, io_ret.
    destruct e as [code|msg]; [|done]. simpl.
    rewrite bool_decide_eq_false_2; [done|]. intros ->. done.
  - intros f lines Hf Hne Hall Hdata.
    assert (loadJournal None pd fs0
            = (Returns (omap (λ line, match trim line with
                                      | [] => None
                                      | trimmed => JSON_parse trimmed
                                      end) lines), fs0)) as Hload.
    { rewrite (loadJournal_no_fault _ _ jp) by done.
      unfold journal_text, entries_of.
      rewrite Hf, Hdata, split_join_lines, read_entries_omap by done.
      rewrite app_nil_l. f_equal. f_equal. clear -Hline.
      induction lines as [|line lines IH]; [done|].
      cbn [omap list_omap]. by rewrite Hline, IH. }
    split; [done|].
    intros before bad after -> Hbad. rewrite Hload, omap_app. simpl.
    assert (match trim bad with [] => None | trimmed => JSON_parse trimmed end = None)
      as ->; [|done].
    destruct Hbad as [->|Hbad]; [done|]. by destruct (trim bad).
Qed.

Lemma appendJournalEntry_unconfigured faults pd record fs0 :
  usable (journalPath pd) = None →
  appendJournalEntry faults pd record fs0 = (Returns (), fs0).
Proof. intros Hjp. unfold appendJournalEntry. by rewrite Hjp. Qed.

Lemma appendJournalEntry_written pd record fs0 jp :
  usable (journalPath pd) = Some jp →
  appendJournalEntry no_faults pd record fs0
  = (Returns (),
     Fs.mk ({[ path_dirname jp ]} ∪ Fs.dirs fs0)
           (<[jp := match Fs.files fs0 !! jp with
                    | Some f => Fs.mkfile (Fs.data f ++ journal_line (journal_entry_of record))
                                          (Fs.mode f)
                    | None => Fs.mkfile (journal_line (journal_entry_of record)) mode_0o600
                    end]> (Fs.files fs0))).
Proof.
  intros Hjp. unfold appendJournalEntry. rewrite Hjp.
  unfold try_catch, io_then, io_bind, mkdirSync, appendFileSync, io_ret. simpl.
  rewrite decide_True by set_solver. done.
Qed.

(** What a journal write can do to the text of the journal: extend it, and
    with the whole line or with nothing when the append does not fail in
    the middle of its writes. *)
Lemma appendJournalEntry_text faults pd record fs0 jp :
  usable (journalPath pd) = Some jp →
  let fs1 := (appendJournalEntry faults pd record fs0).2 in
  journal_text fs0 jp `prefix_of` journal_text fs1 jp
  ∧ ((∀ torn e, append_fault faults ≠ Some (FailsInWrite torn e)) →
     journal_text fs1 jp = journal_text fs0 jp
     ∨ journal_text fs1 jp
       = journal_text fs0 jp ++ journal_line (journal_entry_of record)).
Proof.
  intros Hjp. unfold appendJournalEntry. rewrite Hjp.
  unfold try_catch, io_then, io_bind, mkdirSync, appendFileSync, io_ret, journal_text.
  destruct (mkdir_fault faults) as [[made e]|]; [split; [done|by left]|].
  simpl. case_decide.
  - destruct (append_fault faults) as [[e|torn e]|]; simpl.
    + split; [done|by left].
    + rewrite lookup_insert_eq. split.
      * destruct (Fs.files fs0 !! jp); simpl; [by apply prefix_app_r|apply prefix_nil].
      * intros Hno. by destruct (Hno torn e).
    + rewrite lookup_insert_eq. split.
      * destruct (Fs.files fs0 !! jp); simpl; [by apply prefix_app_r|apply prefix_nil].
      * intros _. right. by destruct (Fs.files fs0 !! jp).
  - destruct (append_fault faults) as [[e|torn e]|]; simpl; (split; [done|by left]).
Qed.






Lemma getAuditLog_empty limit fault pd fs0 :
  loadJournal fault pd fs0 = (Returns [], fs0) →
  getAuditLog limit fault pd fs0 = (Returns [], fs0).
Proof.
  intros Hl. unfold getAuditLog, io_bind. rewrite Hl.
  destruct limit as [n|]; [|done].
  case_bool_decide; [|done]. unfold io_ret, slice_from. by rewrite drop_nil.
Qed.

(** C7.  In a manager constructed without a durable directory (or with the
    empty string for one), [register] tracks a record as usual, [resolve]
    of a tracked unresolved id returns [true] and makes the resolution
    transition, the file system is left as it was by the skipped journal
    write, and [loadJournal] and [getAuditLog] return the empty list
    without throwing. *)
Theorem no_storage_no_failures σ :
  persistDir σ = None ∨ persistDir σ = Some [] →
  (∀ l timeoutMs, pending σ !! Approval.id (deref σ l) = None →
     register l timeoutMs σ = (Returns (next σ), registered_state l timeoutMs σ))
  ∧ (∀ recordId p decision resolvedBy now faults,
       pending σ !! recordId = Some p →
       Approval.resolvedAtMs (deref σ (Pending.record p)) = None →
       resolve recordId decision resolvedBy now faults σ
       = (Returns true,
          settled_state recordId p (Some decision) (orNull resolvedBy) now (fs σ) σ))
  ∧ (∀ faults record fs0,
       appendJournalEntry faults (persistDir σ) record fs0 = (Returns (), fs0))
  ∧ (∀ fault fs0, loadJournal fault (persistDir σ) fs0 = (Returns [], fs0))
  ∧ (∀ limit fault fs0, getAuditLog limit fault (persistDir σ) fs0 = (Returns [], fs0)).
Proof.
  intros Hpd.
  assert (usable (journalPath (persistDir σ)) = None) as Hjp.
  { by destruct Hpd as [-> | ->]. }
  assert (∀ fault fs0, loadJournal fault (persistDir σ) fs0 = (Returns [], fs0)) as Hload.
  { intros fault fs0. unfold loadJournal. by rewrite Hjp. }
  split; [intros l t Hp; by apply register_new|].
  split.
  { intros recordId p decision resolvedBy now faults Hp Hr.
    rewrite (resolve_success _ _ _ _ _ _ p) by done.
    by rewrite appendJournalEntry_unconfigured. }
  split; [intros; by apply appendJournalEntry_unconfigured|].
  split; [done|].
  intros limit fault fs0. by apply getAuditLog_empty.
Qed.

(** ** Expiry *)

(** C3.  When the expiry timer of a tracked entry fires, the record is
    stamped with the time of firing, its decision is absent and its
    [resolvedBy] is [null], the promise of the entry, which had not been
    settled, is fulfilled with [null], the eviction is scheduled after the
    grace period, and the file system is untouched: nothing is journaled.
    This is the resolution transition that an explicit [resolve] of the
    same entry makes, with another outcome and without the journal
    write. *)
Theorem expiry_resolves_without_journal σ t entry d now :
  reachable σ →
  timers σ !! t = Some (mkTimer (Expire entry) d) →
  let recordId := Approval.id (deref σ (Pending.record entry)) in
  let σ' := fire t now σ in
  exec (EvFire t now) σ = Some σ'
  ∧ pending σ !! recordId = Some entry
  ∧ σ' = settled_state recordId entry None Null now (fs σ) σ
  ∧ Approval.resolvedAtMs (deref σ' (Pending.record entry)) = Some now
  ∧ Approval.decision (deref σ' (Pending.record entry)) = None
  ∧ Approval.resolvedBy (deref σ' (Pending.record entry)) = Null
  ∧ fulfilled σ (Pending.promise entry) = None
  ∧ fulfilled σ' (Pending.promise entry) = Some None
  ∧ settlements σ' (Pending.promise entry) = [None]
  ∧ timers σ' !! t = None
  ∧ timers σ' !! next σ = Some (mkTimer (Evict recordId entry) RESOLVED_ENTRY_GRACE_MS)
  ∧ fs σ' = fs σ
  ∧ (∀ decision resolvedBy faults,
       Approval.resolvedAtMs (deref σ (Pending.record entry)) = None →
       ∃ fs', resolve recordId decision resolvedBy now faults σ
              = (Returns true,
                 settled_state recordId entry (Some decision) (orNull resolvedBy)
                               now fs' σ)).
Proof.
  intros Hreach Ht. pose proof (reachable_wf _ Hreach) as Hwf.
  destruct (wf_expire _ Hwf _ _ _ Ht) as [Htimer Hp].
  destruct (wf_pending _ Hwf _ _ Hp) as (_ & _ & _ & Hlt & Hdisj).
  assert (settlements σ (Pending.promise entry) = []) as Hlog.
  { destruct Hdisj as [[_ ?]|[Hnone _]]; [done|]. rewrite Htimer in Hnone. congruence. }
  cbv zeta. unfold exec. rewrite (fire_expire _ _ _ _ _ Ht).
  split. { by rewrite decide_True by eauto. }
  split; [done|].
  split. { unfold settled_state. by rewrite Htimer. }
  unfold deref, fulfilled, settlements in *. simpl.
  rewrite !lookup_total_insert_eq, Hlog. simpl.
  do 6 (split; [done|]).
  split. { rewrite lookup_insert_ne by lia. apply lookup_delete_eq. }
  split; [apply lookup_insert_eq|]. split; [done|].
  intros decision resolvedBy faults Hr.
  rewrite (resolve_success _ _ _ _ _ _ entry) by done. eauto.
Qed.

(** ** resolve that succeeds *)

Lemma orNull_idem {A} (x : optional A) : orNull (orNull x) = orNull x.
Proof. by destruct x. Qed.


(** ** Monotonic resolution *)

Lemma run_orderly_run tr σ σ' : run_orderly tr σ = Some σ' → run tr σ = Some σ'.
Proof.
  revert σ. induction tr as [|ev tr IH]; intros σ Hrun; simpl in *; [done|].
  case_decide; [|done]. destruct (exec ev σ); [by apply IH|done].
Qed.

Lemma run_wf tr σ σ' : wf σ → run tr σ = Some σ' → wf σ'.
Proof.
  revert σ. induction tr as [|ev tr IH]; intros σ Hwf Hrun; simpl in Hrun.
  - by injection Hrun as <-.
  - destruct (exec ev σ) as [σ1|] eqn:Hex; [|done].
    apply (IH σ1); [by eapply wf_exec|done].
Qed.

Lemma run_settlements tr σ σ' p :
  wf σ → run tr σ = Some σ' → settlements σ p `prefix_of` settlements σ' p.
Proof.
  revert σ. induction tr as [|ev tr IH]; intros σ Hwf Hrun; simpl in Hrun.
  - by injection Hrun as <-.
  - destruct (exec ev σ) as [σ1|] eqn:Hex; [|done].
    trans (settlements σ1 p); [by eapply exec_settlements|].
    apply IH; [by eapply wf_exec|done].
Qed.

Lemma run_keeps_resolved tr σ σ' l at_ms :
  orderly σ → run_orderly tr σ = Some σ' →
  Approval.resolvedAtMs (deref σ l) = Some at_ms →
  deref σ' l = deref σ l.
Proof.
  revert σ. induction tr as [|ev tr IH]; intros σ Ho Hrun Hl; simpl in Hrun.
  - by injection Hrun as <-.
  - case_decide as Hreg; [|done].
    destruct (exec ev σ) as [σ1|] eqn:Hex; [|done].
    pose proof (exec_keeps_resolved _ _ _ _ _ Ho Hreg Hex Hl) as Hstep.
    rewrite <- Hstep. apply IH; [by eapply orderly_step|done|by rewrite Hstep].
Qed.

(** Resolution under a discipline of the client.  As long as the client
    never registers a record that is already resolved under an id the
    registry does not track (the records that [create] returns are not
    resolved), a record that
    carries [resolvedAtMs] is never written again: the marker, the
    decision and [resolvedBy] stay what they are through every later
    operation.  A promise that has been fulfilled keeps its value and no
    promise is ever handed a second value.  For a tracked entry whose
    record is resolved the expiry timer is no longer armed, the promise has
    been fulfilled exactly once, and every later [resolve] of its id
    returns [false] and changes nothing. *)
Theorem resolution_is_monotonic tr σ σ' :
  orderly σ → run_orderly tr σ = Some σ' →
  (∀ l at_ms, Approval.resolvedAtMs (deref σ l) = Some at_ms →
     deref σ' l = deref σ l
     ∧ Approval.resolvedAtMs (deref σ' l) = Some at_ms
     ∧ Approval.decision (deref σ' l) = Approval.decision (deref σ l)
     ∧ Approval.resolvedBy (deref σ' l) = Approval.resolvedBy (deref σ l))
  ∧ (∀ p v, fulfilled σ p = Some v → settlements σ' p = [v])
  ∧ (∀ p, length (settlements σ' p) ≤ 1)
  ∧ (∀ k e, pending σ' !! k = Some e →
       is_Some (Approval.resolvedAtMs (deref σ' (Pending.record e))) →
       timers σ' !! Pending.timer e = None
       ∧ (∃ v, settlements σ' (Pending.promise e) = [v])
       ∧ ∀ decision resolvedBy now faults,
           resolve k decision resolvedBy now faults σ' = (Returns false, σ')).
Proof.
  intros Ho Hrun.
  pose proof (orderly_run _ _ _ Ho Hrun) as Ho'.
  destruct (orderly_inv _ Ho) as [Hwf _].
  destruct (orderly_inv _ Ho') as [Hwf' Hts'].
  split; [|split; [|split]].
  - intros l at_ms Hl.
    rewrite (run_keeps_resolved _ _ _ _ _ Ho Hrun Hl). by rewrite Hl.
  - intros p v Hv.
    pose proof (run_settlements _ _ _ p Hwf (run_orderly_run _ _ _ Hrun)) as [k Hk].
    pose proof (wf_settled _ Hwf' p) as Hlen.
    unfold fulfilled in Hv. rewrite Hk in *.
    destruct (settlements σ p) as [|v' rest]; [done|]. injection Hv as ->.
    simpl in Hlen. destruct rest, k; simpl in *; [done|lia..].
  - apply (wf_settled _ Hwf').
  - intros k e Hk Hres.
    destruct (wf_pending _ Hwf' _ _ Hk) as (_ & _ & _ & _ & Hdisj).
    destruct Hdisj as [[[d Hd] _]|(Hnone & Hlog & _)].
    { rewrite (Hts' _ _ _ Hd) in Hres. by destruct Hres. }
    split; [done|]. split; [done|]. intros. by eapply resolve_resolved.
Qed.

(** ** Accumulation *)

Lemma resolve_each_cons c rest σ :
  resolve_each (c :: rest) σ =
    let r := resolve (res_id c) (res_decision c) (res_by c) (res_now c) no_faults σ in
    (r.1 :: (resolve_each rest r.2).1, (resolve_each rest r.2).2).
Proof.
  cbn [resolve_each]. cbv zeta.
  destruct (resolve (res_id c) (res_decision c) (res_by c) (res_now c) no_faults σ)
    as [r σ1].
  cbn [fst snd]. by destruct (resolve_each rest σ1).
Qed.

Lemma resolve_each_journal calls : ∀ σ jp,
  wf σ →
  usable (journalPath (persistDir σ)) = Some jp →
  NoDup (res_id <$> calls) →
  Forall (λ c, awaiting σ (res_id c)) calls →
  (resolve_each calls σ).1 = (λ _, Returns true) <$> calls
  ∧ persistDir (resolve_each calls σ).2 = persistDir σ
  ∧ journal_text (fs (resolve_each calls σ).2) jp
    = journal_text (fs σ) jp ++ concat (journal_line <$> (journaled σ <$> calls)).
Proof.
  induction calls as [|c rest IH]; intros σ jp Hwf Hjp Hnd Hall.
  { cbn [resolve_each fst snd]. rewrite !fmap_nil.
    change (concat []) with (@nil N). by rewrite app_nil_r. }
  apply NoDup_cons in Hnd as [Hc Hnd]. apply Forall_cons in Hall as [[p [Hp Hr]] Hall].
  destruct (wf_pending _ Hwf _ _ Hp) as (_ & Hid & _).
  rewrite resolve_each_cons, (resolve_success _ _ _ _ _ _ p) by done.
  cbv zeta. cbn [fst snd]. rewrite !fmap_cons.
  change (concat (?x :: ?l)) with (x ++ concat l).
  set (old := deref σ (Pending.record p)).
  set (record' := Approval.stamp (res_now c) (Some (res_decision c))
                                 (orNull (res_by c)) old).
  set (fs1 := (appendJournalEntry no_faults (persistDir σ) record' (fs σ)).2).
  set (σ1 := settled_state (res_id c) p (Some (res_decision c)) (orNull (res_by c))
                           (res_now c) fs1 σ).
  assert (∀ k e, pending σ !! k = Some e → k ≠ res_id c →
            deref σ1 (Pending.record e) = deref σ (Pending.record e)) as Hother.
  { intros k e Hk Hne. unfold deref, σ1, settled_state. cbn [heap].
    apply lookup_total_insert_ne. intros Heq.
    destruct (wf_pending _ Hwf _ _ Hk) as (_ & Hid' & _).
    rewrite <- Heq, Hid in Hid'. congruence. }
  assert (wf σ1) as Hwf1.
  { pose proof (wf_resolve (res_id c) (res_decision c) (res_by c) (res_now c)
                           no_faults σ Hwf) as Hw.
    by rewrite (resolve_success _ _ _ _ _ _ p) in Hw by done. }
  assert (Forall (λ c', awaiting σ1 (res_id c') ∧ journaled σ1 c' = journaled σ c') rest)
    as Hrest.
  { apply Forall_forall. intros c' Hin.
    assert (res_id c' ≠ res_id c) as Hne.
    { intros Heq. apply Hc. rewrite <- Heq. by apply list_elem_of_fmap_2. }
    rewrite Forall_forall in Hall. destruct (Hall c' Hin) as [p' [Hp' Hr']].
    split.
    - exists p'. split; [done|]. by rewrite (Hother _ _ Hp' Hne).
    - unfold journaled, tracked, getSnapshot. cbn [σ1 settled_state pending].
      rewrite Hp'. simpl. fold σ1. by rewrite (Hother _ _ Hp' Hne). }
  destruct (IH σ1 jp Hwf1 Hjp Hnd) as (IH1 & IH2 & IH3).
  { eapply Forall_impl; [apply Hrest|]. by intros c' [? _]. }
  split; [by rewrite IH1|]. split; [done|].
  rewrite IH3.
  assert ((journaled σ1 <$> rest) = (journaled σ <$> rest)) as ->.
  { apply list_fmap_ext. intros i c' Hi.
    rewrite Forall_forall in Hrest.
    apply (Hrest c'). by eapply list_elem_of_lookup_2. }
  unfold σ1, settled_state. cbn [fs]. unfold fs1.
  rewrite (appendJournalEntry_written _ _ _ jp) by done.
  assert (journal_entry_of record' = journaled σ c) as ->.
  { unfold journal_entry_of, journaled, tracked, getSnapshot, record', old.
    rewrite Hp. simpl. by rewrite orNull_idem, Hid. }
  unfold journal_text. cbn [snd Fs.files]. rewrite lookup_insert_eq.
  destruct (Fs.files (fs σ) !! jp); cbn [Fs.data]; by rewrite <- ?app_assoc.
Qed.

Lemma entries_of_lines (entries : list JournalEntry) :
  Forall (λ e, JSON_parse (stringify (Journal.to_json e)) = Some (Journal.to_json e))
         entries →
  entries_of (concat (journal_line <$> entries)) = Journal.to_json <$> entries.
Proof.
  induction 1 as [|e entries He _ IH]; [done|].
  rewrite !fmap_cons. change (concat (?x :: ?l)) with (x ++ concat l).
  by rewrite entries_of_journal_line, He, IH.
Qed.

Lemma entries_of_terminated text rest :
  text = [] ∨ (∃ t, text = t ++ [LF]) →
  entries_of (text ++ rest) = entries_of text ++ entries_of rest.
Proof.
  intros [->|[t ->]]; [done|].
  rewrite <- app_assoc. simpl. rewrite entries_of_app.
  replace (t ++ [LF]) with (t ++ LF :: []) by done.
  by rewrite entries_of_app, entries_of_nil, app_nil_r.
Qed.

Lemma slice_from_last {A} (k : Z) (l1 l2 : list A) :
  (0 < k ≤ Z.of_nat (length l2))%Z →
  slice_from (- k) (l1 ++ l2) = drop (length l2 - Z.to_nat k) l2.
Proof.
  intros Hk. unfold slice_from. rewrite length_app.
  rewrite (proj2 (Z.ltb_lt _ _)) by lia.
  replace (Z.to_nat (Z.max (Z.of_nat (length l1 + length l2) + - k) 0))
    with (length l1 + (length l2 - Z.to_nat k)) by lia.
  apply drop_app_add.
Qed.

(** C6, as amended.  Take a manager with a durable directory whose journal file is
    absent, empty or ends with a line feed, and N calls of [resolve] on
    distinct ids, each tracked with an unresolved record, none of them
    meeting a fault; assume that [JSON.parse] reads back what
    [JSON.stringify] wrote for these N entries.  Then every call returns
    [true]; the journal text is the earlier text followed by the N lines in
    the order of the calls, so nothing earlier is overwritten;
    [getAuditLog()] returns the earlier entries followed by the N entries
    in that order, which are all the entries there are when the file was
    absent; and [getAuditLog(k)] returns the last k of the N entries, in
    order, for every k from 1 to N. *)
Theorem journal_accumulates calls σ jp :
  reachable σ →
  usable (journalPath (persistDir σ)) = Some jp →
  NoDup (res_id <$> calls) →
  Forall (λ c, awaiting σ (res_id c)) calls →
  journal_text (fs σ) jp = [] ∨ (∃ t, journal_text (fs σ) jp = t ++ [LF]) →
  Forall (λ c, JSON_parse (stringify (Journal.to_json (journaled σ c)))
               = Some (Journal.to_json (journaled σ c))) calls →
  let entries := journaled σ <$> calls in
  let σ' := (resolve_each calls σ).2 in
  (resolve_each calls σ).1 = (λ _, Returns true) <$> calls
  ∧ journal_text (fs σ') jp
    = journal_text (fs σ) jp ++ concat (journal_line <$> entries)
  ∧ getAuditLog None None (persistDir σ') (fs σ')
    = (Returns (entries_of (journal_text (fs σ) jp) ++ (Journal.to_json <$> entries)),
       fs σ')
  ∧ (Fs.files (fs σ) !! jp = None →
       getAuditLog None None (persistDir σ') (fs σ')
       = (Returns (Journal.to_json <$> entries), fs σ'))
  ∧ (∀ k : Z, (0 < k ≤ Z.of_nat (length calls))%Z →
       getAuditLog (Some k) None (persistDir σ') (fs σ')
       = (Returns (Journal.to_json <$> drop (length calls - Z.to_nat k) entries),
          fs σ')).
Proof.
  intros Hreach Hjp Hnd Hall Hterm Hparse. cbv zeta.
  destruct (resolve_each_journal calls σ jp (reachable_wf _ Hreach) Hjp Hnd Hall)
    as (Hret & Hpd & Htext).
  assert (loadJournal None (persistDir (resolve_each calls σ).2)
                      (fs (resolve_each calls σ).2)
          = (Returns (entries_of (journal_text (fs σ) jp)
                      ++ (Journal.to_json <$> (journaled σ <$> calls))),
             fs (resolve_each calls σ).2)) as Hload.
  { rewrite (loadJournal_no_fault _ _ jp) by by rewrite Hpd.
    rewrite Htext, entries_of_terminated by done.
    rewrite entries_of_lines; [done|]. by apply Forall_fmap. }
  split; [done|]. split; [done|]. split; [|split].
  - unfold getAuditLog, io_bind. by rewrite Hload.
  - intros Hnone. unfold getAuditLog, io_bind. rewrite Hload.
    unfold journal_text. by rewrite Hnone.
  - intros k Hk. unfold getAuditLog, io_bind. rewrite Hload.
    rewrite bool_decide_eq_true_2 by lia. unfold io_ret.
    rewrite slice_from_last by (rewrite !length_fmap; lia).
    by rewrite !length_fmap, fmap_drop.
Qed.

End Claims.

(** * The claims on the sample scenario *)

Lemma after_reachable pd tr σ :
  run tr (init pd Fs.empty) = Some σ → reachable σ.
Proof. apply reachable_run. constructor. Qed.

Lemma after_orderly pd tr σ :
  run_orderly tr (init pd Fs.empty) = Some σ → orderly σ.
Proof. apply orderly_run. constructor. Qed.

Lemma registered_reachable : reachable Sample.registered.
Proof.
  apply (after_reachable Sample.dir Sample.three_registered).
  vm_compute; reflexivity.
Qed.

Lemma resolved_orderly : orderly Sample.resolved.
Proof.
  apply (after_orderly Sample.dir Sample.three_resolved). vm_compute; reflexivity.
Qed.



(** On the scenario: through the later events the record of [b] stays
    what the first resolution made it, and its promise keeps the one
    value. *)
Lemma resolution_is_monotonic_witness :
  let σ' := Sample.after Sample.dir (Sample.three_resolved ++ Sample.later) in
  deref σ' 3 = deref Sample.resolved 3
  ∧ Approval.decision (deref σ' 3) = Some (str "deny")
  ∧ settlements σ' 4 = [Some (str "deny")].
Proof.
  cbv zeta.
  destruct (resolution_is_monotonic Sample.later Sample.resolved
              (Sample.after Sample.dir (Sample.three_resolved ++ Sample.later))
              resolved_orderly) as (Hrec & Hful & _);
    [vm_compute; reflexivity|].
  destruct (Hrec 3 2000%Z) as (Hsame & _ & Hdec & _); [vm_compute; reflexivity|].
  split; [exact Hsame|]. split; [rewrite Hdec; vm_compute; reflexivity|].
  apply Hful. vm_compute; reflexivity.
Defined.

(** C2.  The code at the input where it departs from the claim.  The
    record of [a] was resolved at 1000 with [approve].  Its entry is
    evicted after the grace period and the same record object is
    registered again: [register] finds no entry to check and accepts it.
    When the new timer fires, its callback stamps the record without
    looking at the marker, which [resolve] does look at: [resolvedAtMs]
    becomes 50000 and the decision is gone. *)
Lemma stale_record_is_overwritten :
  let again := [EvFire 9 20000; EvRegister 0 30000; EvFire 13 50000] in
  let σ' := Sample.after Sample.dir (Sample.three_resolved ++ again) in
  run again Sample.resolved = Some σ'
  ∧ Approval.resolvedAtMs (deref Sample.resolved 0) = Some 1000%Z
  ∧ Approval.decision (deref Sample.resolved 0) = Some (str "approve")
  ∧ Approval.resolvedAtMs (deref σ' 0) = Some 50000%Z
  ∧ Approval.decision (deref σ' 0) = None.
Proof. vm_compute. repeat split. Qed.

(** C3 on the scenario: the timer of the first request fires. *)
Lemma expiry_resolves_without_journal_witness :
  Approval.resolvedAtMs (deref (fire 2 40000 Sample.registered) 0) = Some 40000%Z
  ∧ Approval.decision (deref (fire 2 40000 Sample.registered) 0) = None
  ∧ fulfilled (fire 2 40000 Sample.registered) 1 = Some None
  ∧ fs (fire 2 40000 Sample.registered) = fs Sample.registered.
Proof.
  destruct (expiry_resolves_without_journal Sample.registered 2 Sample.entry_a
              30000 40000 registered_reachable)
    as (_ & _ & _ & Hat & Hdec & _ & _ & Hful & _ & _ & _ & Hfs & _);
    [vm_compute; reflexivity|].
  exact (conj Hat (conj Hdec (conj Hful Hfs))).
Defined.

(** C4 on the scenario: the first record is registered again, before and
    after its resolution. *)
Lemma register_tracked_id_witness :
  register 0 30000 Sample.registered = (Returns 1, Sample.registered)
  ∧ register 0 30000 Sample.resolved
    = (Throws (Error (str "approval id 'a' already resolved")), Sample.resolved).
Proof.
  split.
  - destruct (register_tracked_id 0 30000 Sample.registered Sample.entry_a)
      as [Hsame _]; [vm_compute; reflexivity|].
    apply Hsame. vm_compute; reflexivity.
  - destruct (register_tracked_id 0 30000 Sample.resolved Sample.entry_a)
      as [_ Hthrow]; [vm_compute; reflexivity|].
    etrans; [apply Hthrow; vm_compute; eauto|]. vm_compute; reflexivity.
Defined.

(** C5 on the scenario: no file yet, a directory that cannot be read, and
    a journal with a line that is not JSON and a blank line between two
    records. *)
Lemma loadJournal_spec_witness :
  loadJournal None Sample.dir Fs.empty = (Returns [], Fs.empty)
  ∧ loadJournal (Some (ErrnoException (str "EACCES"))) Sample.dir Fs.empty
    = (Throws (ErrnoException (str "EACCES")), Fs.empty)
  ∧ loadJournal None Sample.dir Sample.damaged
    = (Returns [Journal.to_json (Sample.echo_entry "a" "echo hello" "approve" 1000);
                Journal.to_json (Sample.echo_entry "b" "ls -la" "deny" 2000)],
       Sample.damaged).
Proof.
  split; [|split].
  - destruct (loadJournal_spec Sample.dir Fs.empty) as (_ & Hconf).
    destruct (Hconf Sample.journal_file) as (Habsent & _); [vm_compute; reflexivity|].
    apply Habsent. vm_compute; reflexivity.
  - destruct (loadJournal_spec Sample.dir Fs.empty) as (_ & Hconf).
    destruct (Hconf Sample.journal_file) as (_ & _ & Hthrow & _);
      [vm_compute; reflexivity|].
    apply Hthrow. discriminate.
  - destruct (loadJournal_spec Sample.dir Sample.damaged) as (_ & Hconf).
    destruct (Hconf Sample.journal_file) as (_ & _ & _ & Hread);
      [vm_compute; reflexivity|].
    destruct (Hread (Fs.mkfile (join_lines Sample.damaged_lines) mode_0o600)
                    Sample.damaged_lines) as [Hall _].
    + vm_compute; reflexivity.
    + discriminate.
    + refine (bool_decide_unpack (Forall (λ s, Forall (λ c, c ≠ LF) s)
                                         Sample.damaged_lines) _).
      vm_compute. exact I.
    + reflexivity.
    + etrans; [exact Hall|]. vm_compute; reflexivity.
Defined.

(** C6 on the scenario: the three requests are resolved in turn. *)
Lemma journal_accumulates_witness :
  let σ' := (resolve_each Sample.three_calls Sample.registered).2 in
  getAuditLog None None (persistDir σ') (fs σ')
  = (Returns (Journal.to_json <$> Sample.known), fs σ')
  ∧ getAuditLog (Some 2%Z) None (persistDir σ') (fs σ')
    = (Returns (Journal.to_json <$> drop 1 Sample.known), fs σ').
Proof.
  cbv zeta.
  destruct (journal_accumulates Sample.three_calls Sample.registered
              Sample.journal_file registered_reachable)
    as (_ & _ & _ & Hall & Hlast).
  - vm_compute; reflexivity.
  - refine (bool_decide_unpack (NoDup (res_id <$> Sample.three_calls)) _).
    vm_compute. exact I.
  - repeat (apply List.Forall_cons;
            [eexists; split; vm_compute; reflexivity|]).
    apply List.Forall_nil.
  - left. vm_compute; reflexivity.
  - repeat (apply List.Forall_cons; [vm_compute; reflexivity|]).
    apply List.Forall_nil.
  - split.
    + rewrite Hall by (vm_compute; reflexivity). vm_compute; reflexivity.
    + rewrite (Hlast 2%Z) by (simpl; lia). vm_compute; reflexivity.
Defined.

(** C6, the counterexample: three distinct tracked requests are resolved
    and every call returns [true]; without a durable directory
    [getAuditLog()] returns no entry at all, and on a journal that ended in
    the middle of a line it returns two of the three, the first record
    having run into that line. *)
Lemma journal_may_miss_entries :
  (let r := resolve_each Sample.three_calls Sample.registered_in_memory in
   r.1 = [Returns true; Returns true; Returns true]
   ∧ getAuditLog None None (persistDir r.2) (fs r.2) = (Returns [], fs r.2))
  ∧ (let r := resolve_each Sample.three_calls Sample.registered_on_cut_short in
     r.1 = [Returns true; Returns true; Returns true]
     ∧ getAuditLog None None (persistDir r.2) (fs r.2)
       = (Returns (Journal.to_json <$> drop 1 Sample.known), fs r.2)).
Proof. vm_compute. repeat split. Qed.

(** C7 on the scenario, without a directory. *)
Lemma no_storage_no_failures_witness :
  (resolve (str "a") (str "approve") Sample.user 1000 no_faults
           Sample.registered_in_memory).1
  = Returns true
  ∧ getAuditLog None None (persistDir Sample.registered_in_memory) Fs.empty
    = (Returns [], Fs.empty).
Proof.
  destruct (no_storage_no_failures Sample.registered_in_memory)
    as (_ & Hres & _ & _ & Haudit); [left; vm_compute; reflexivity|].
  split; [|apply Haudit].
  rewrite (Hres (str "a") Sample.entry_a); [reflexivity|vm_compute; reflexivity..].
Defined.


(** C10 on the scenario: a second decision for the first request. *)
Lemma resolve_false_is_noop_witness :
  resolve (str "a") (str "deny") Null 5000 no_faults Sample.resolved
  = (Returns false, Sample.resolved)
  ∧ (pending Sample.resolved !! str "a" = None
     ∨ ∃ p, pending Sample.resolved !! str "a" = Some p
            ∧ is_Some (Approval.resolvedAtMs
                         (deref Sample.resolved (Pending.record p)))).
Proof.
  assert (resolve (str "a") (str "deny") Null 5000 no_faults Sample.resolved
          = (Returns false, Sample.resolved)) as Hfalse
    by (vm_compute; reflexivity).
  split; [exact Hfalse|].
  destruct (resolve_false_is_noop _ _ _ _ _ _ _ Hfalse)
    as (_ & _ & _ & _ & _ & _ & Hwhy).
  exact Hwhy.
Defined.

(** * Further properties of the manager

    What the code guarantees beyond the claims above: the bookkeeping of
    the registry, of its timers and of the journal, for every client. *)

(** ** The bookkeeping of evictions *)

Lemma housekeeping_init pd fs0 : housekeeping (init pd fs0).
Proof.
  split; simpl.
  - intros t k e d Ht. by rewrite lookup_empty in Ht.
  - intros k e Hk. by rewrite lookup_empty in Hk.
  - intros t1 t2 k1 k2 e d1 d2 Ht. by rewrite lookup_empty in Ht.
Qed.

Lemma housekeeping_alloc r σ : housekeeping σ → housekeeping (alloc r σ).2.
Proof. intros [He Hr Ho]. split; simpl; eauto. Qed.

Section Housekeeping.
Context `{Platform}.

Lemma housekeeping_settled_state k e v by_ now fs' σ d :
  wf σ → housekeeping σ →
  pending σ !! k = Some e →
  timers σ !! Pending.timer e = Some (mkTimer (Expire e) d) →
  housekeeping (settled_state k e v by_ now fs' σ).
Proof.
  intros Hwf [He Hr Ho] Hk Harmed.
  destruct (wf_pending _ Hwf k e Hk) as (_ & Hid & _ & Htn & _).
  split; unfold settled_state; cbn [persistDir pending heap timers promises next fs].
  - intros t k' e' d' Ht. destruct (decide (t = next σ)) as [->|Hne].
    + rewrite lookup_insert_eq in Ht. by injection Ht as <- <- <-.
    + rewrite lookup_insert_ne in Ht by done.
      apply lookup_delete_Some in Ht as [_ Ht]. eauto.
  - intros k' e' Hk' Hgone.
    destruct (wf_pending _ Hwf k' e' Hk') as (_ & Hid' & _ & Htn' & Hdisj').
    rewrite lookup_insert_ne in Hgone by lia.
    apply lookup_delete_None in Hgone as [Heq|Hgone].
    + assert (e' = e) as ->.
      { destruct Hdisj' as [[[d' Hd'] _]|[Hnone _]]; rewrite <- Heq in *.
        - rewrite Harmed in Hd'. by injection Hd' as ->.
        - congruence. }
      assert (k' = k) as -> by congruence.
      exists (next σ). apply lookup_insert_eq.
    + destruct (Hr k' e' Hk' Hgone) as [t Ht]. exists t.
      assert (t < next σ) by (apply (wf_timers _ Hwf); eauto).
      rewrite lookup_insert_ne by lia. rewrite lookup_delete_ne; [done|].
      intros <-. congruence.
  - intros t1 t2 k1 k2 e' d1 d2 Ht1 Ht2.
    assert (∀ t k' d', timers σ !! t = Some (mkTimer (Evict k' e) d') → False)
      as Hfresh.
    { intros t k' d' Ht. destruct (wf_evict _ Hwf _ _ _ _ Ht) as [_ Hnone]. congruence. }
    destruct (decide (t1 = next σ)) as [->|Hne1];
      destruct (decide (t2 = next σ)) as [->|Hne2]; [done| | |].
    + rewrite lookup_insert_eq in Ht1. injection Ht1 as <- <- <-.
      rewrite lookup_insert_ne in Ht2 by done.
      apply lookup_delete_Some in Ht2 as [_ Ht2]. destruct (Hfresh _ _ _ Ht2).
    + rewrite lookup_insert_eq in Ht2. injection Ht2 as <- <- <-.
      rewrite lookup_insert_ne in Ht1 by done.
      apply lookup_delete_Some in Ht1 as [_ Ht1]. destruct (Hfresh _ _ _ Ht1).
    + rewrite lookup_insert_ne in Ht1, Ht2 by done.
      apply lookup_delete_Some in Ht1 as [_ Ht1].
      apply lookup_delete_Some in Ht2 as [_ Ht2]. eauto.
Qed.

Lemma housekeeping_registered_state l timeoutMs σ :
  wf σ → housekeeping σ →
  pending σ !! Approval.id (deref σ l) = None →
  housekeeping (registered_state l timeoutMs σ).
Proof.
  intros Hwf [He Hr Ho] Hfree.
  split; unfold registered_state; cbn [persistDir pending heap timers promises next fs].
  - intros t k e d Ht. destruct (decide (t = S (next σ))) as [->|Hne].
    { by rewrite lookup_insert_eq in Ht. }
    rewrite lookup_insert_ne in Ht by done.
    destruct (He _ _ _ _ Ht) as [-> Hk]. split; [done|].
    rewrite lookup_insert_ne; [done|]. intros <-. congruence.
  - intros k e Hk Hgone. destruct (decide (k = Approval.id (deref σ l))) as [->|Hne].
    + rewrite lookup_insert_eq in Hk. injection Hk as <-. simpl in Hgone.
      by rewrite lookup_insert_eq in Hgone.
    + rewrite lookup_insert_ne in Hk by done.
      destruct (wf_pending _ Hwf k e Hk) as (_ & _ & _ & Htn & _).
      rewrite lookup_insert_ne in Hgone by lia.
      destruct (Hr k e Hk Hgone) as [t Ht]. exists t.
      assert (t < next σ) by (apply (wf_timers _ Hwf); eauto).
      by rewrite lookup_insert_ne by lia.
  - intros t1 t2 k1 k2 e d1 d2 Ht1 Ht2.
    destruct (decide (t1 = S (next σ))) as [->|Hne1].
    { by rewrite lookup_insert_eq in Ht1. }
    destruct (decide (t2 = S (next σ))) as [->|Hne2].
    { by rewrite lookup_insert_eq in Ht2. }
    rewrite lookup_insert_ne in Ht1, Ht2 by done. eauto.
Qed.

Lemma housekeeping_fire t now σ : wf σ → housekeeping σ → housekeeping (fire t now σ).
Proof.
  intros Hwf Hhk.
  destruct (timers σ !! t) as [[[e|k e] d]|] eqn:Ht.
  - rewrite (fire_expire _ _ _ _ _ Ht).
    destruct (wf_expire _ Hwf _ _ _ Ht) as [<- Hp].
    by apply (housekeeping_settled_state _ e None Null now (fs σ) σ d).
  - rewrite (fire_evict _ _ _ _ _ _ Ht).
    destruct Hhk as [He Hr Ho].
    destruct (He _ _ _ _ Ht) as [-> Hk]. rewrite decide_True by done.
    split; cbn [persistDir pending heap timers promises next fs].
    + intros t' k' e' d' Ht'. apply lookup_delete_Some in Ht' as [Hne Ht'].
      destruct (He _ _ _ _ Ht') as [-> Hk']. split; [done|].
      rewrite lookup_delete_ne; [done|].
      intros <-. assert (e' = e) as -> by congruence.
      by apply Hne, (Ho _ _ _ _ _ _ _ Ht Ht').
    + intros k' e' Hk' Hgone. apply lookup_delete_Some in Hk' as [Hkne Hk'].
      destruct (wf_pending _ Hwf k' e' Hk') as (_ & _ & _ & _ & Hdisj').
      assert (timers σ !! Pending.timer e' = None) as Hnone.
      { apply lookup_delete_None in Hgone as [Heq|?]; [|done].
        rewrite <- Heq in Hdisj'.
        destruct Hdisj' as [[[d' Hd'] _]|[Hnone _]]; congruence. }
      destruct (Hr k' e' Hk' Hnone) as [t' Ht']. exists t'.
      rewrite lookup_delete_ne; [done|]. intros <-. congruence.
    + intros t1 t2 k1 k2 e' d1 d2 Ht1 Ht2.
      apply lookup_delete_Some in Ht1 as [_ Ht1].
      apply lookup_delete_Some in Ht2 as [_ Ht2]. eauto.
  - unfold fire. by rewrite Ht.
Qed.

Lemma housekeeping_exec ev σ σ' :
  wf σ → housekeeping σ → exec ev σ = Some σ' → housekeeping σ'.
Proof.
  intros Hwf Hhk Hex. destruct ev; simpl in Hex.
  - injection Hex as <-. by apply housekeeping_alloc.
  - injection Hex as <-. by apply housekeeping_alloc.
  - case_decide as Hl; [|done]. injection Hex as <-.
    destruct (pending σ !! Approval.id (deref σ l)) as [existing|] eqn:Hp.
    + by rewrite (register_existing _ _ _ _ Hp).
    + rewrite (register_new _ _ _ Hp). by apply housekeeping_registered_state.
  - injection Hex as <-.
    destruct (pending σ !! recordId) as [p|] eqn:Hp;
      [|by rewrite resolve_unknown].
    destruct (Approval.resolvedAtMs (deref σ (Pending.record p))) as [t|] eqn:Hr.
    { by rewrite (resolve_resolved _ _ _ _ _ _ p) by eauto. }
    rewrite (resolve_success _ _ _ _ _ _ p) by done. simpl.
    destruct (wf_pending _ Hwf _ _ Hp) as (_ & _ & _ & _ & [[[d Hd] _]|(_ & _ & [? ?])]);
      [|congruence].
    by eapply housekeeping_settled_state.
  - case_decide; [|done]. injection Hex as <-. by apply housekeeping_fire.
Qed.

Lemma reachable_housekeeping σ : reachable σ → housekeeping σ.
Proof.
  induction 1 as [pd fs0|σ ev σ' Hr IH Hex]; [apply housekeeping_init|].
  eapply housekeeping_exec; [|done..]. by apply reachable_wf.
Qed.

End Housekeeping.

(** ** White space around a journal line *)

Lemma trimStart_padding ws s : padding ws → trimStart (ws ++ s) = trimStart s.
Proof. induction 1 as [|c ws [Hc _] _ IH]; simpl; [done|]. by rewrite Hc. Qed.

Lemma trim_padding ws : padding ws → trim ws = [].
Proof.
  intros Hws. unfold trim.
  rewrite <- (app_nil_r ws), trimStart_padding by done. done.
Qed.

Lemma trim_padded ws1 ws2 c body d :
  padding ws1 → padding ws2 →
  isWhiteSpace c = false → isWhiteSpace d = false →
  trim (ws1 ++ (c :: body ++ [d]) ++ ws2) = c :: body ++ [d].
Proof.
  intros Hws1 Hws2 Hc Hd. unfold trim, trimEnd.
  rewrite trimStart_padding by done.
  change ((c :: body ++ [d]) ++ ws2) with (c :: (body ++ [d]) ++ ws2).
  rewrite trimStart_keeps by done.
  replace (rev (c :: (body ++ [d]) ++ ws2)) with (rev ws2 ++ d :: rev body ++ [c]).
  - rewrite trimStart_padding by (by apply Forall_rev).
    rewrite trimStart_keeps by done.
    rewrite <- (rev_involutive (c :: body ++ [d])). f_equal.
    simpl. by rewrite rev_app_distr.
  - simpl. rewrite !rev_app_distr. simpl. by rewrite <- !app_assoc.
Qed.

Lemma padding_no_LF ws : padding ws → no_LF ws.
Proof. intros Hws. eapply Forall_impl; [done|]. by intros c [_ ?]. Qed.

(** ** The registry *)

Section Registry.
Context `{Platform}.

Lemma timer_delay_in_range delay :
  (1 ≤ delay ≤ TIMEOUT_MAX)%Z → timer_delay delay = delay.
Proof.
  intros [Hlo Hhi]. unfold timer_delay.
  by rewrite (proj2 (Z.leb_le _ _) Hlo), (proj2 (Z.leb_le _ _) Hhi).
Qed.

Lemma timer_delay_out_of_range delay :
  ¬ (1 ≤ delay ≤ TIMEOUT_MAX)%Z → timer_delay delay = 1%Z.
Proof.
  intros Hout. unfold timer_delay.
  destruct (Z.leb_spec 1 delay); [|done].
  destruct (Z.leb_spec delay TIMEOUT_MAX); [lia|done].
Qed.

(** The stamps that [register] is about to use are not in use. *)
Lemma untracked_promise_is_new σ :
  wf σ → promises σ !! next σ = None ∧ timers σ !! S (next σ) = None.
Proof.
  intros Hwf. split.
  - destruct (promises σ !! next σ) eqn:Hn; [|done].
    pose proof (wf_promises _ Hwf _ (mk_is_Some _ _ Hn)). lia.
  - destruct (timers σ !! S (next σ)) eqn:Hn; [|done].
    pose proof (wf_timers _ Hwf _ (mk_is_Some _ _ Hn)). lia.
Qed.

(** X1.  Registering a record whose id the registry does not track makes
    a new promise, which is pending, and arms one timer, a timer that did
    not exist, with the delay that the platform gives it: the given
    [timeoutMs] when it is between 1 and 2^31 - 1, and 1 ms otherwise.
    From then on [awaitDecision] of the id returns that promise and
    [getSnapshot] the record.  The records,
    the file system, the promises made before and what [awaitDecision]
    and [getSnapshot] return for every other id are as they were, and
    registering the record once more, when it is not resolved, returns
    the same promise and changes nothing. *)
Theorem register_untracked_id l timeoutMs σ :
  reachable σ →
  pending σ !! Approval.id (deref σ l) = None →
  let recordId := Approval.id (deref σ l) in
  let promise := next σ in
  let entry := Pending.mk l (S promise) promise in
  let σ' := (register l timeoutMs σ).2 in
  (register l timeoutMs σ).1 = Returns promise
  ∧ promises σ !! promise = None
  ∧ fulfilled σ' promise = None
  ∧ awaitDecision recordId σ' = Some promise
  ∧ getSnapshot recordId σ' = Some l
  ∧ heap σ' = heap σ
  ∧ timers σ !! S promise = None
  ∧ timers σ'
    = <[S promise := mkTimer (Expire entry) (timer_delay timeoutMs)]> (timers σ)
  ∧ ((1 ≤ timeoutMs ≤ TIMEOUT_MAX)%Z → timer_delay timeoutMs = timeoutMs)
  ∧ (¬ (1 ≤ timeoutMs ≤ TIMEOUT_MAX)%Z → timer_delay timeoutMs = 1%Z)
  ∧ (∀ k, k ≠ recordId →
       awaitDecision k σ' = awaitDecision k σ ∧ getSnapshot k σ' = getSnapshot k σ)
  ∧ (∀ p, p ≠ promise → settlements σ' p = settlements σ p)
  ∧ fs σ' = fs σ
  ∧ ∀ timeoutMs', Approval.resolvedAtMs (deref σ l) = None →
      register l timeoutMs' σ' = (Returns promise, σ').
Proof.
  intros Hreach Hfree. pose proof (reachable_wf _ Hreach) as Hwf.
  destruct (untracked_promise_is_new σ Hwf) as [Hp Ht].
  cbv zeta. rewrite (register_new _ _ _ Hfree).
  unfold registered_state, awaitDecision, getSnapshot, fulfilled, settlements, deref.
  cbn [fst snd persistDir pending heap timers promises next fs].
  split; [done|]. split; [done|].
  split. { by rewrite lookup_total_insert_eq. }
  split. { by rewrite lookup_insert_eq. }
  split. { by rewrite lookup_insert_eq. }
  do 3 (split; [done|]).
  split. { intros Hin. by apply timer_delay_in_range. }
  split. { intros Hout. by apply timer_delay_out_of_range. }
  split. { intros k Hk. by rewrite lookup_insert_ne. }
  split. { intros p Hne. by rewrite lookup_total_insert_ne. }
  split; [done|].
  intros timeoutMs' Hr. unfold register, deref.
  cbn [persistDir pending heap timers promises next fs].
  rewrite lookup_insert_eq. cbn [Pending.record Pending.promise].
  unfold deref in Hr. by rewrite Hr.
Qed.

(** X2.  An armed eviction waits for the grace period of 15000 ms, and
    the entry it captured is the one the registry tracks under its id: the
    comparison in the callback never fails.  The record of the entry is
    resolved and its promise settled.  When the eviction fires the entry
    leaves the registry and nothing else changes: [getSnapshot] and
    [awaitDecision] of the id return [null], [resolve] of the id returns
    [false], and a record with that id can be registered anew, which makes
    a promise that is not the one of the evicted entry. *)
Theorem eviction_removes_the_entry σ t recordId entry d now :
  reachable σ →
  timers σ !! t = Some (mkTimer (Evict recordId entry) d) →
  let σ' := fire t now σ in
  d = RESOLVED_ENTRY_GRACE_MS
  ∧ pending σ !! recordId = Some entry
  ∧ is_Some (Approval.resolvedAtMs (deref σ (Pending.record entry)))
  ∧ is_Some (fulfilled σ (Pending.promise entry))
  ∧ pending σ' = delete recordId (pending σ)
  ∧ getSnapshot recordId σ' = None
  ∧ awaitDecision recordId σ' = None
  ∧ timers σ' = delete t (timers σ)
  ∧ heap σ' = heap σ ∧ promises σ' = promises σ ∧ fs σ' = fs σ
  ∧ (∀ decision resolvedBy now' faults,
       resolve recordId decision resolvedBy now' faults σ' = (Returns false, σ'))
  ∧ (∀ l timeoutMs, Approval.id (deref σ l) = recordId →
       (register l timeoutMs σ').1 = Returns (next σ)
       ∧ next σ ≠ Pending.promise entry
       ∧ awaitDecision recordId (register l timeoutMs σ').2 = Some (next σ)).
Proof.
  intros Hreach Ht. pose proof (reachable_wf _ Hreach) as Hwf.
  destruct (hk_evict _ (reachable_housekeeping _ Hreach) _ _ _ _ Ht) as [-> Hk].
  destruct (wf_evict _ Hwf _ _ _ _ Ht) as [_ Hgone].
  destruct (wf_pending _ Hwf _ _ Hk) as (_ & _ & Htp & Htn & Hdisj).
  destruct Hdisj as [[[d' Hd'] _]|(_ & [v Hv] & Hres)]; [congruence|].
  cbv zeta. rewrite (fire_evict _ _ _ _ _ _ Ht), decide_True by done.
  split; [done|]. split; [done|]. split; [done|].
  split. { unfold fulfilled. rewrite Hv. simpl. eauto. }
  unfold getSnapshot, awaitDecision.
  cbn [persistDir pending heap timers promises next fs].
  split; [done|]. rewrite lookup_delete_eq.
  do 6 (split; [done|]).
  split. { intros. apply resolve_unknown. simpl. apply lookup_delete_eq. }
  intros l timeoutMs Hid. rewrite register_new.
  - unfold registered_state, deref.
    cbn [fst snd persistDir pending heap timers promises next fs].
    split; [done|]. split; [lia|].
    unfold deref in Hid. by rewrite Hid, lookup_insert_eq.
  - unfold deref in *. cbn [persistDir pending heap timers promises next fs].
    rewrite Hid. apply lookup_delete_eq.
Qed.

(** X3.  In every reachable state each tracked entry has exactly one
    timer armed: its expiry timer while its promise is pending, and, once
    the promise is settled, one eviction with the grace period as its
    delay.  Conversely every armed timer is the expiry timer or the
    eviction of an entry that is tracked. *)
Theorem every_entry_is_on_one_timer σ :
  reachable σ →
  (∀ k e, pending σ !! k = Some e →
     ((∃ d, timers σ !! Pending.timer e = Some (mkTimer (Expire e) d))
      ∧ fulfilled σ (Pending.promise e) = None
      ∧ ∀ t k' d, timers σ !! t ≠ Some (mkTimer (Evict k' e) d))
     ∨ (timers σ !! Pending.timer e = None
        ∧ is_Some (fulfilled σ (Pending.promise e))
        ∧ is_Some (Approval.resolvedAtMs (deref σ (Pending.record e)))
        ∧ ∃ t, timers σ !! t = Some (mkTimer (Evict k e) RESOLVED_ENTRY_GRACE_MS)
               ∧ ∀ t' k' d', timers σ !! t' = Some (mkTimer (Evict k' e) d') → t' = t))
  ∧ (∀ t tm, timers σ !! t = Some tm →
       ∃ k e, pending σ !! k = Some e
              ∧ (t = Pending.timer e ∧ t_callback tm = Expire e
                 ∨ tm = mkTimer (Evict k e) RESOLVED_ENTRY_GRACE_MS)).
Proof.
  intros Hreach. pose proof (reachable_wf _ Hreach) as Hwf.
  pose proof (reachable_housekeeping _ Hreach) as Hhk.
  split.
  - intros k e Hk.
    destruct (wf_pending _ Hwf _ _ Hk) as (_ & _ & _ & _ & Hdisj).
    destruct Hdisj as [[[d Hd] Hlog]|(Hnone & [v Hv] & Hres)].
    + left. split; [eauto|]. split; [unfold fulfilled; by rewrite Hlog|].
      intros t k' d' Ht. destruct (wf_evict _ Hwf _ _ _ _ Ht) as [_ Hgone]. congruence.
    + right. split; [done|]. split; [unfold fulfilled; rewrite Hv; simpl; eauto|].
      split; [done|].
      destruct (hk_resolved _ Hhk _ _ Hk Hnone) as [t Ht]. exists t. split; [done|].
      intros t' k' d' Ht'. apply (hk_once _ Hhk _ _ _ _ _ _ _ Ht' Ht).
  - intros t [[e|k e] d] Ht.
    + destruct (wf_expire _ Hwf _ _ _ Ht) as [Heq Hp]. eauto 10.
    + destruct (hk_evict _ Hhk _ _ _ _ Ht) as [-> Hk]. eauto 10.
Qed.

(** What the resolution of one entry leaves of another. *)
Lemma settled_state_frame k0 e0 v by_ now fs' σ d k e :
  wf σ →
  pending σ !! k0 = Some e0 →
  timers σ !! Pending.timer e0 = Some (mkTimer (Expire e0) d) →
  pending σ !! k = Some e → k ≠ k0 →
  let σ' := settled_state k0 e0 v by_ now fs' σ in
  pending σ' !! k = Some e
  ∧ deref σ' (Pending.record e) = deref σ (Pending.record e)
  ∧ settlements σ' (Pending.promise e) = settlements σ (Pending.promise e)
  ∧ ∀ t tm, callback_entry (t_callback tm) = e →
      timers σ' !! t = Some tm ↔ timers σ !! t = Some tm.
Proof.
  intros Hwf Hk0 Harmed Hk Hne.
  destruct (wf_pending _ Hwf _ _ Hk0) as (_ & Hid0 & Htp0 & Htn0 & _).
  destruct (wf_pending _ Hwf _ _ Hk) as (_ & Hid & Htp & Htn & Hdisj).
  assert (Pending.timer e ≠ Pending.timer e0) as Htne.
  { intros Heq. rewrite Heq in Hdisj.
    destruct Hdisj as [[[d' Hd'] _]|[Hnone _]]; [|congruence].
    rewrite Harmed in Hd'. injection Hd' as -> _. congruence. }
  cbv zeta. unfold settled_state, deref, settlements in *.
  cbn [persistDir pending heap timers promises next fs].
  split; [done|]. split.
  { apply lookup_total_insert_ne. intros Heq. rewrite Heq in Hid0. congruence. }
  split. { apply lookup_total_insert_ne. lia. }
  intros t tm Hcb. destruct (decide (t = next σ)) as [->|Hnt].
  - rewrite lookup_insert_eq. split.
    + intros [= <-]. simpl in Hcb. congruence.
    + intros Ht. pose proof (wf_timers _ Hwf _ (mk_is_Some _ _ Ht)). lia.
  - rewrite lookup_insert_ne by done. rewrite lookup_delete_Some. split; [tauto|].
    intros Ht. split; [|done]. intros <-. rewrite Harmed in Ht.
    injection Ht as <-. simpl in Hcb. congruence.
Qed.

Lemma exec_frame σ k e ev σ' :
  wf σ → housekeeping σ →
  pending σ !! k = Some e →
  exec ev σ = Some σ' → ¬ concerns σ k e ev →
  pending σ' !! k = Some e
  ∧ deref σ' (Pending.record e) = deref σ (Pending.record e)
  ∧ settlements σ' (Pending.promise e) = settlements σ (Pending.promise e)
  ∧ ∀ t tm, callback_entry (t_callback tm) = e →
      timers σ' !! t = Some tm ↔ timers σ !! t = Some tm.
Proof.
  intros Hwf Hhk Hk Hex Hnot.
  destruct (wf_pending _ Hwf _ _ Hk) as (Hl & Hid & Htp & Htn & Hdisj).
  destruct ev; simpl in Hex, Hnot.
  - injection Hex as <-. unfold deref, settlements. simpl.
    rewrite lookup_total_insert_ne by lia. done.
  - injection Hex as <-. unfold deref, settlements. simpl.
    rewrite lookup_total_insert_ne by lia. done.
  - case_decide; [|done]. injection Hex as <-.
    destruct (pending σ !! Approval.id (deref σ l)) as [existing|] eqn:Hp.
    { by rewrite (register_existing _ _ _ _ Hp). }
    rewrite (register_new _ _ _ Hp). unfold registered_state, deref, settlements.
    cbn [snd persistDir pending heap timers promises next fs].
    split. { rewrite lookup_insert_ne; [done|]. intros Heq. unfold deref in Hp. congruence. }
    split; [done|]. split. { apply lookup_total_insert_ne. lia. }
    intros t tm Hcb. destruct (decide (t = S (next σ))) as [->|Hnt].
    + rewrite lookup_insert_eq. split.
      * intros [= <-]. simpl in Hcb. rewrite <- Hcb in Htn. simpl in Htn. lia.
      * intros Ht. pose proof (wf_timers _ Hwf _ (mk_is_Some _ _ Ht)). lia.
    + by rewrite lookup_insert_ne.
  - injection Hex as <-.
    destruct (pending σ !! recordId) as [p|] eqn:Hp;
      [|by rewrite resolve_unknown].
    destruct (Approval.resolvedAtMs (deref σ (Pending.record p))) as [t|] eqn:Hr.
    { by rewrite (resolve_resolved _ _ _ _ _ _ p) by eauto. }
    rewrite (resolve_success _ _ _ _ _ _ p) by done. cbn [snd].
    destruct (wf_pending _ Hwf _ _ Hp) as (_ & _ & _ & _ & [[[d Hd] _]|(_ & _ & [? ?])]);
      [|congruence].
    eapply settled_state_frame; eauto.
  - case_decide; [|done]. injection Hex as <-.
    destruct (timers σ !! t) as [[[e'|k' e'] d]|] eqn:Ht.
    + rewrite (fire_expire _ _ _ _ _ Ht).
      destruct (wf_expire _ Hwf _ _ _ Ht) as [<- Hp].
      apply (settled_state_frame _ e' None Null now (fs σ) σ d); [done..|].
      intros Heq. apply Hnot. simpl. congruence.
    + rewrite (fire_evict _ _ _ _ _ _ Ht).
      destruct (hk_evict _ Hhk _ _ _ _ Ht) as [-> Hk']. rewrite decide_True by done.
      assert (e' ≠ e) as Hne.
      { intros ->. by apply Hnot. }
      unfold deref, settlements. cbn [persistDir pending heap timers promises next fs].
      split. { rewrite lookup_delete_ne; [done|]. intros <-. congruence. }
      split; [done|]. split; [done|].
      intros t' tm Hcb. rewrite lookup_delete_Some. split; [tauto|].
      intros Ht'. split; [|done]. intros <-. rewrite Ht in Ht'.
      injection Ht' as <-. simpl in Hcb. done.
    + unfold fire. by rewrite Ht.
Qed.

(** X4.  The entries of the registry do not interfere.  An event that
    is neither a [resolve] of the id of a tracked entry nor the firing of
    a timer that captured the entry leaves the entry as it is: it stays
    tracked under its id with the same promise and record, the record is
    not written, the promise receives nothing, and the timers that
    captured the entry are the same as before. *)
Theorem entries_are_independent σ k e ev σ' :
  reachable σ →
  pending σ !! k = Some e →
  exec ev σ = Some σ' → ¬ concerns σ k e ev →
  awaitDecision k σ' = Some (Pending.promise e)
  ∧ getSnapshot k σ' = Some (Pending.record e)
  ∧ deref σ' (Pending.record e) = deref σ (Pending.record e)
  ∧ settlements σ' (Pending.promise e) = settlements σ (Pending.promise e)
  ∧ ∀ t tm, callback_entry (t_callback tm) = e →
      timers σ' !! t = Some tm ↔ timers σ !! t = Some tm.
Proof.
  intros Hreach Hk Hex Hnot.
  destruct (exec_frame σ k e ev σ' (reachable_wf _ Hreach)
              (reachable_housekeeping _ Hreach) Hk Hex Hnot) as (Hk' & Hrest).
  unfold awaitDecision, getSnapshot. by rewrite Hk'.
Qed.

(** X5.  A tracked entry whose promise is fulfilled has its eviction
    armed, and until that timer fires the entry stays where it is: after
    any sequence of events that does not fire it, [awaitDecision] of the id
    still returns the promise, with the value it was fulfilled with, and
    [getSnapshot] still returns the record.  A late caller finds the
    decision during the whole grace period. *)
Theorem resolved_entry_stays_for_the_grace_period tr σ σ' k e v :
  reachable σ →
  pending σ !! k = Some e →
  fulfilled σ (Pending.promise e) = Some v →
  run tr σ = Some σ' →
  ∃ t, timers σ !! t = Some (mkTimer (Evict k e) RESOLVED_ENTRY_GRACE_MS)
       ∧ (Forall (λ ev, ∀ now, ev ≠ EvFire t now) tr →
            awaitDecision k σ' = Some (Pending.promise e)
            ∧ getSnapshot k σ' = Some (Pending.record e)
            ∧ fulfilled σ' (Pending.promise e) = Some v
            ∧ timers σ' !! t = Some (mkTimer (Evict k e) RESOLVED_ENTRY_GRACE_MS)).
Proof.
  intros Hreach Hk Hv Hrun.
  assert (timers σ !! Pending.timer e = None) as Hgone.
  { destruct (wf_pending _ (reachable_wf _ Hreach) _ _ Hk) as (_ & _ & _ & _ & Hdisj).
    destruct Hdisj as [[_ Hlog]|[? _]]; [|done].
    unfold fulfilled in Hv. by rewrite Hlog in Hv. }
  destruct (hk_resolved _ (reachable_housekeeping _ Hreach) _ _ Hk Hgone) as [t Ht].
  exists t. split; [done|]. intros Hquiet.
  revert σ Hreach Hk Hv Hrun Hgone Ht.
  induction Hquiet as [|ev tr Hev Hquiet IH]; intros σ Hreach Hk Hv Hrun Hgone Ht;
    simpl in Hrun.
  { injection Hrun as <-. unfold awaitDecision, getSnapshot. by rewrite Hk. }
  destruct (exec ev σ) as [σ1|] eqn:Hex; [|done].
  pose proof (reachable_wf _ Hreach) as Hwf.
  pose proof (reachable_housekeeping _ Hreach) as Hhk.
  assert (pending σ1 !! k = Some e
          ∧ settlements σ1 (Pending.promise e) = settlements σ (Pending.promise e)
          ∧ timers σ1 !! Pending.timer e = None
          ∧ timers σ1 !! t = Some (mkTimer (Evict k e) RESOLVED_ENTRY_GRACE_MS))
    as (Hk1 & Hlog1 & Hgone1 & Ht1).
  { destruct (decide (concerns σ k e ev)) as [Hc|Hc].
    - destruct ev; simpl in Hc; try done.
      + subst recordId. simpl in Hex. injection Hex as <-.
        rewrite (resolve_resolved _ _ _ _ _ _ e); [done..|].
        destruct (wf_pending _ Hwf _ _ Hk) as (_ & _ & _ & _ & Hdisj).
        destruct Hdisj as [[[d Hd] _]|(_ & _ & ?)]; [congruence|done].
      + destruct (timers σ !! t0) as [[cb d]|] eqn:Ht0; [|done].
        rename Hc into Hcb. simpl in Hcb. destruct cb as [e'|k' e'].
        * simpl in Hcb. subst e'.
          destruct (wf_expire _ Hwf _ _ _ Ht0) as [Heq _]. congruence.
        * simpl in Hcb. subst e'.
          pose proof (hk_once _ Hhk _ _ _ _ _ _ _ Ht0 Ht) as ->.
          by destruct (Hev now).
    - destruct (exec_frame σ k e ev σ1 Hwf Hhk Hk Hex Hc) as (Hk1 & _ & Hlog1 & Htm).
      split; [done|]. split; [done|]. split.
      + destruct (timers σ1 !! Pending.timer e) as [tm|] eqn:Htm1; [|done].
        pose proof (reachable_wf _ (reachable_step _ _ _ Hreach Hex)) as Hwf1.
        destruct (wf_pending _ Hwf1 _ _ Hk1) as (_ & _ & _ & _ & Hdisj).
        destruct Hdisj as [[[d Hd] _]|[? _]]; [|congruence].
        rewrite Htm1 in Hd. injection Hd as ->.
        apply (Htm (Pending.timer e)) in Htm1; [congruence|done].
      + by apply Htm. }
  apply (IH σ1); [by eapply reachable_step|done| |done..].
  unfold fulfilled. by rewrite Hlog1.
Qed.

(** One step keeps the record objects and writes no field of a record but
    the three of a resolution. *)
Lemma exec_keeps_request ev σ σ' l :
  wf σ → exec ev σ = Some σ' → is_Some (heap σ !! l) →
  is_Some (heap σ' !! l)
  ∧ ∀ at_ms d by_, Approval.stamp at_ms d by_ (deref σ' l)
                   = Approval.stamp at_ms d by_ (deref σ l).
Proof.
  intros Hwf Hex Hl. pose proof (wf_heap _ Hwf _ Hl) as Hlt.
  assert (∀ r now v by_,
            is_Some (<[r := Approval.stamp now v by_ (heap σ !!! r)]> (heap σ) !! l)
            ∧ ∀ at_ms d by', Approval.stamp at_ms d by'
                 (<[r := Approval.stamp now v by_ (heap σ !!! r)]> (heap σ) !!! l)
               = Approval.stamp at_ms d by' (heap σ !!! l)) as Hstamp.
  { intros r now v by_. destruct (decide (r = l)) as [->|Hne].
    - rewrite lookup_insert_eq, lookup_total_insert_eq. split; [eauto|done].
    - rewrite lookup_insert_ne, lookup_total_insert_ne by done. done. }
  destruct ev; simpl in Hex.
  - injection Hex as <-. unfold deref. simpl.
    rewrite lookup_insert_ne, lookup_total_insert_ne by lia. done.
  - injection Hex as <-. unfold deref. simpl.
    rewrite lookup_insert_ne, lookup_total_insert_ne by lia. done.
  - case_decide; [|done]. injection Hex as <-.
    destruct (pending σ !! Approval.id (deref σ l0)) as [existing|] eqn:Hp.
    + by rewrite (register_existing _ _ _ _ Hp).
    + by rewrite (register_new _ _ _ Hp).
  - injection Hex as <-.
    destruct (pending σ !! recordId) as [p|] eqn:Hp;
      [|by rewrite resolve_unknown].
    destruct (Approval.resolvedAtMs (deref σ (Pending.record p))) as [t'|] eqn:Hr.
    { by rewrite (resolve_resolved _ _ _ _ _ _ p) by eauto. }
    rewrite (resolve_success _ _ _ _ _ _ p) by done. apply Hstamp.
  - case_decide; [|done]. injection Hex as <-.
    destruct (timers σ !! t) as [[[e|k e] d]|] eqn:Ht.
    + rewrite (fire_expire _ _ _ _ _ Ht). apply Hstamp.
    + by rewrite (fire_evict _ _ _ _ _ _ Ht).
    + unfold fire. by rewrite Ht.
Qed.

Lemma run_keeps_request tr σ σ' l :
  wf σ → run tr σ = Some σ' → is_Some (heap σ !! l) →
  is_Some (heap σ' !! l)
  ∧ (∀ at_ms d by_, Approval.stamp at_ms d by_ (deref σ' l)
                    = Approval.stamp at_ms d by_ (deref σ l))
  ∧ (is_Some (Approval.resolvedAtMs (deref σ l)) →
     is_Some (Approval.resolvedAtMs (deref σ' l))).
Proof.
  revert σ. induction tr as [|ev tr IH]; intros σ Hwf Hrun Hl; simpl in Hrun.
  - by injection Hrun as <-.
  - destruct (exec ev σ) as [σ1|] eqn:Hex; [|done].
    destruct (exec_keeps_request _ _ _ _ Hwf Hex Hl) as [Hl1 Hsame1].
    destruct (IH σ1 (wf_exec _ _ _ Hwf Hex) Hrun Hl1) as (Hl' & Hsame & Hmark).
    split; [done|]. split.
    + intros. by rewrite Hsame, Hsame1.
    + intros Hres. apply Hmark. by eapply exec_keeps_marker.
Qed.

(** X6.  Whatever the client does, register a resolved record again
    included, the manager writes no field of a record but [resolvedAtMs],
    [decision] and [resolvedBy]: the id, the request, the two times of
    creation and the caller metadata of every record stay what they were,
    and a record that carries [resolvedAtMs] carries it for ever.  A
    promise that is fulfilled keeps its value and no promise is handed a
    second value. *)
Theorem any_client_resolution_sticks tr σ σ' :
  reachable σ → run tr σ = Some σ' →
  (∀ l, is_Some (heap σ !! l) →
     is_Some (heap σ' !! l)
     ∧ Approval.id (deref σ' l) = Approval.id (deref σ l)
     ∧ Approval.request (deref σ' l) = Approval.request (deref σ l)
     ∧ Approval.createdAtMs (deref σ' l) = Approval.createdAtMs (deref σ l)
     ∧ Approval.expiresAtMs (deref σ' l) = Approval.expiresAtMs (deref σ l)
     ∧ Approval.requestedByConnId (deref σ' l) = Approval.requestedByConnId (deref σ l)
     ∧ Approval.requestedByDeviceId (deref σ' l)
       = Approval.requestedByDeviceId (deref σ l)
     ∧ Approval.requestedByClientId (deref σ' l)
       = Approval.requestedByClientId (deref σ l)
     ∧ (is_Some (Approval.resolvedAtMs (deref σ l)) →
        is_Some (Approval.resolvedAtMs (deref σ' l))))
  ∧ (∀ p v, fulfilled σ p = Some v →
       fulfilled σ' p = Some v ∧ settlements σ' p = [v])
  ∧ (∀ p, length (settlements σ' p) ≤ 1).
Proof.
  intros Hreach Hrun. pose proof (reachable_wf _ Hreach) as Hwf.
  pose proof (run_wf _ _ _ Hwf Hrun) as Hwf'.
  split; [|split].
  - intros l Hl.
    destruct (run_keeps_request _ _ _ _ Hwf Hrun Hl) as (Hl' & Hsame & Hmark).
    specialize (Hsame 0%Z None Null).
    split; [done|].
    split; [exact (f_equal Approval.id Hsame)|].
    split; [exact (f_equal Approval.request Hsame)|].
    split; [exact (f_equal Approval.createdAtMs Hsame)|].
    split; [exact (f_equal Approval.expiresAtMs Hsame)|].
    split; [exact (f_equal Approval.requestedByConnId Hsame)|].
    split; [exact (f_equal Approval.requestedByDeviceId Hsame)|].
    split; [exact (f_equal Approval.requestedByClientId Hsame)|done].
  - intros p v Hv.
    pose proof (run_settlements _ _ _ p Hwf Hrun) as [k Hk].
    pose proof (wf_settled _ Hwf' p) as Hlen.
    unfold fulfilled in *. rewrite Hk in *.
    destruct (settlements σ p) as [|v' rest]; [done|]. injection Hv as ->.
    simpl in Hlen. destruct rest, k; simpl in *; [done|lia..].
  - apply (wf_settled _ Hwf').
Qed.

(** X7.  A request made by [create] and then registered, when the registry
    does not track the id of the record, is tracked under that id, which
    is the supplied id with its surrounding white space trimmed off:
    [getSnapshot] of that id returns the record as [create] made it,
    [awaitDecision] returns the promise of [register], which is pending,
    and the expiry timer runs with the delay given to [register] when that
    is between 1 and 2^31 - 1, and with 1 ms otherwise.  Under the id as
    it was supplied, when it has white space around it and the registry
    did not track that id either, nothing is found and [resolve] returns
    [false].  A [resolve] of the trimmed id returns [true] and hands its
    decision to the promise and to the record. *)
Theorem created_request_is_tracked request timeoutMs id now uuid timeoutMs' σ :
  pending σ !! Approval.id (create request timeoutMs id now uuid) = None →
  let r := create request timeoutMs id now uuid in
  let l := (alloc r σ).1 in
  let σ1 := (alloc r σ).2 in
  let promise := S (next σ) in
  let σ2 := (register l timeoutMs' σ1).2 in
  (register l timeoutMs' σ1).1 = Returns promise
  ∧ deref σ2 l = r
  ∧ getSnapshot (Approval.id r) σ2 = Some l
  ∧ awaitDecision (Approval.id r) σ2 = Some promise
  ∧ fulfilled σ2 promise = None
  ∧ timers σ2 !! S promise
    = Some (mkTimer (Expire (Pending.mk l (S promise) promise))
                    (timer_delay timeoutMs'))
  ∧ ((1 ≤ timeoutMs' ≤ TIMEOUT_MAX)%Z → timer_delay timeoutMs' = timeoutMs')
  ∧ (¬ (1 ≤ timeoutMs' ≤ TIMEOUT_MAX)%Z → timer_delay timeoutMs' = 1%Z)
  ∧ (∀ s, id = Some s → trim s ≠ [] → s ≠ trim s → pending σ !! s = None →
       Approval.id r = trim s
       ∧ awaitDecision s σ2 = None ∧ getSnapshot s σ2 = None
       ∧ ∀ decision resolvedBy now' faults,
           resolve s decision resolvedBy now' faults σ2 = (Returns false, σ2))
  ∧ ∀ decision resolvedBy now' faults,
      let σ3 := (resolve (Approval.id r) decision resolvedBy now' faults σ2).2 in
      (resolve (Approval.id r) decision resolvedBy now' faults σ2).1 = Returns true
      ∧ fulfilled σ3 promise = Some (Some decision)
      ∧ Approval.decision (deref σ3 l) = Some decision
      ∧ Approval.resolvedAtMs (deref σ3 l) = Some now'.
Proof.
  intros Hfree. cbv zeta.
  set (r := create request timeoutMs id now uuid) in *.
  assert (Approval.resolvedAtMs r = None) as Hfresh by done.
  assert (∀ s, id = Some s → trim s ≠ [] → Approval.id r = trim s) as Htrim.
  { intros s -> Hs. unfold r, create. cbn [Approval.id].
    destruct (truthy s) eqn:Ht; [|by rewrite trim_falsy in Hs].
    rewrite bool_decide_eq_true_2; [done|]. destruct (trim s); [done|simpl; lia]. }
  clearbody r.
  assert (deref (alloc r σ).2 (alloc r σ).1 = r) as Hderef.
  { unfold deref. simpl. apply lookup_total_insert_eq. }
  rewrite register_new by (by rewrite Hderef).
  unfold registered_state. rewrite Hderef.
  unfold getSnapshot, awaitDecision, fulfilled, settlements, deref.
  cbn [alloc fst snd persistDir pending heap timers promises next fs].
  rewrite !lookup_insert_eq, !lookup_total_insert_eq.
  do 6 (split; [done|]).
  split. { intros Hin. by apply timer_delay_in_range. }
  split. { intros Hout. by apply timer_delay_out_of_range. }
  split.
  { intros s Hid Hs Hne Hs0. split; [by apply Htrim|].
    rewrite (Htrim s Hid Hs), !lookup_insert_ne, Hs0 by done.
    do 2 (split; [done|]). intros. apply resolve_unknown. simpl.
    by rewrite lookup_insert_ne. }
  intros decision resolvedBy now' faults.
  rewrite (resolve_success _ _ _ _ _ _ (Pending.mk (next σ) (S (S (next σ))) (S (next σ)))).
  - unfold settled_state, deref, settlements.
    cbn [fst snd persistDir pending heap timers promises next fs
         Pending.record Pending.promise Pending.timer].
    by rewrite !lookup_total_insert_eq.
  - simpl. apply lookup_insert_eq.
  - unfold deref. simpl. by rewrite lookup_total_insert_eq.
Qed.

(** A promise whose entry holds a record that is already resolved is
    never handed a decision. *)
Lemma undecided_step ev σ σ' l p :
  wf σ → exec ev σ = Some σ' →
  p < next σ →
  is_Some (Approval.resolvedAtMs (deref σ l)) →
  (∀ k e, pending σ !! k = Some e → Pending.promise e = p → Pending.record e = l) →
  undecided σ p →
  p < next σ'
  ∧ (∀ k e, pending σ' !! k = Some e → Pending.promise e = p → Pending.record e = l)
  ∧ undecided σ' p.
Proof.
  intros Hwf Hex Hp [at_ms Hl] Hown Hlog. unfold undecided, settlements in *.
  destruct ev; simpl in Hex.
  - injection Hex as <-. simpl. split; [lia|done].
  - injection Hex as <-. simpl. split; [lia|done].
  - case_decide; [|done]. injection Hex as <-.
    destruct (pending σ !! Approval.id (deref σ l0)) as [existing|] eqn:Hk.
    { by rewrite (register_existing _ _ _ _ Hk). }
    rewrite (register_new _ _ _ Hk). unfold registered_state.
    cbn [snd persistDir pending heap timers promises next fs].
    split; [lia|]. split.
    + intros k e Hke Hpe.
      destruct (decide (k = Approval.id (deref σ l0))) as [->|Hne].
      * rewrite lookup_insert_eq in Hke. injection Hke as <-. simpl in Hpe. lia.
      * rewrite lookup_insert_ne in Hke by done. eauto.
    + by rewrite lookup_total_insert_ne by lia.
  - injection Hex as <-.
    destruct (pending σ !! recordId) as [e|] eqn:Hk;
      [|by rewrite resolve_unknown].
    destruct (Approval.resolvedAtMs (deref σ (Pending.record e))) as [t'|] eqn:Hr.
    { by rewrite (resolve_resolved _ _ _ _ _ _ e) by eauto. }
    rewrite (resolve_success _ _ _ _ _ _ e) by done. unfold settled_state.
    cbn [snd persistDir pending heap timers promises next fs].
    split; [lia|]. split; [done|].
    rewrite lookup_total_insert_ne; [done|].
    intros Heq. rewrite (Hown _ _ Hk Heq) in Hr. congruence.
  - case_decide; [|done]. injection Hex as <-.
    destruct (timers σ !! t) as [[[e|k e] d]|] eqn:Ht.
    + rewrite (fire_expire _ _ _ _ _ Ht).
      cbn [persistDir pending heap timers promises next fs].
      split; [lia|]. split; [done|].
      destruct (decide (Pending.promise e = p)) as [<-|Hne].
      * rewrite lookup_total_insert_eq. apply Forall_app. split; [done|].
        by repeat constructor.
      * by rewrite lookup_total_insert_ne.
    + rewrite (fire_evict _ _ _ _ _ _ Ht).
      cbn [persistDir pending heap timers promises next fs].
      split; [done|]. split; [|done].
      intros k' e' Hke. case_decide; [|by eauto].
      apply lookup_delete_Some in Hke as [_ Hke]. eauto.
    + unfold fire. by rewrite Ht.
Qed.

Lemma undecided_run tr : ∀ σ σ' l p,
  wf σ → run tr σ = Some σ' →
  p < next σ →
  is_Some (Approval.resolvedAtMs (deref σ l)) →
  (∀ k e, pending σ !! k = Some e → Pending.promise e = p → Pending.record e = l) →
  undecided σ p →
  undecided σ' p.
Proof.
  induction tr as [|ev tr IH]; intros σ σ' l p Hwf Hrun Hp Hl Hown Hlog;
    simpl in Hrun.
  - by injection Hrun as <-.
  - destruct (exec ev σ) as [σ1|] eqn:Hex; [|done].
    destruct (undecided_step _ _ _ _ _ Hwf Hex Hp Hl Hown Hlog) as (Hp1 & Hown1 & Hlog1).
    apply (IH σ1 σ' l p); [by eapply wf_exec|done..| |done|done].
    by eapply exec_keeps_marker.
Qed.

(** X8.  [register] does not look at the record it is handed when the
    id is not tracked.  A record that is already resolved is accepted: a
    new pending promise is returned and tracked under the id.  Every
    [resolve] of the id returns [false] and changes nothing, a second
    [register] of the record throws, and when the timer of the entry fires
    the promise is fulfilled with [null] and the record is stamped with
    the time of firing and no decision.  Through every later sequence of
    events the promise is never handed a decision. *)
Theorem resolved_record_registered_anew l timeoutMs σ :
  reachable σ →
  pending σ !! Approval.id (deref σ l) = None →
  is_Some (Approval.resolvedAtMs (deref σ l)) →
  let recordId := Approval.id (deref σ l) in
  let promise := next σ in
  let σ1 := (register l timeoutMs σ).2 in
  (register l timeoutMs σ).1 = Returns promise
  ∧ awaitDecision recordId σ1 = Some promise
  ∧ fulfilled σ1 promise = None
  ∧ (∀ decision resolvedBy now faults,
       resolve recordId decision resolvedBy now faults σ1 = (Returns false, σ1))
  ∧ (∀ timeoutMs',
       register l timeoutMs' σ1 = (Throws (already_resolved recordId), σ1))
  ∧ (∀ now, fulfilled (fire (S promise) now σ1) promise = Some None
            ∧ Approval.resolvedAtMs (deref (fire (S promise) now σ1) l) = Some now
            ∧ Approval.decision (deref (fire (S promise) now σ1) l) = None)
  ∧ ∀ tr σ', run tr σ1 = Some σ' → undecided σ' promise.
Proof.
  intros Hreach Hfree Hres. pose proof (reachable_wf _ Hreach) as Hwf.
  assert (is_Some (heap σ !! l)) as Hlive.
  { destruct (heap σ !! l) eqn:Hh; [eauto|]. destruct Hres as [at_ms Hres].
    unfold deref in Hres. by rewrite lookup_total_alt, Hh in Hres. }
  pose proof (wf_heap _ Hwf _ Hlive) as Hlt.
  assert (pending (registered_state l timeoutMs σ) !! Approval.id (deref σ l)
          = Some (Pending.mk l (S (next σ)) (next σ))) as Hk1.
  { simpl. apply lookup_insert_eq. }
  assert (is_Some (Approval.resolvedAtMs (deref (registered_state l timeoutMs σ) l)))
    as Hres1 by done.
  cbv zeta. rewrite (register_new _ _ _ Hfree). cbn [fst snd].
  split; [done|].
  split. { unfold awaitDecision. by rewrite Hk1. }
  split. { unfold fulfilled, settlements. simpl. by rewrite lookup_total_insert_eq. }
  split. { intros. by apply (resolve_resolved _ _ _ _ _ _ _ Hk1). }
  split.
  { intros timeoutMs'.
    rewrite (register_existing _ _ (registered_state l timeoutMs σ) _ Hk1).
    destruct Hres1 as [at_ms Hat]. cbn [Pending.record]. by rewrite Hat. }
  split.
  { intros now.
    rewrite (fire_expire _ _ _ (Pending.mk l (S (next σ)) (next σ))
                         (timer_delay timeoutMs))
      by (simpl; apply lookup_insert_eq).
    unfold fulfilled, settlements, deref.
    cbn [persistDir pending heap timers promises next fs
         Pending.record Pending.promise Pending.timer].
    rewrite !lookup_total_insert_eq. unfold registered_state.
    cbn [persistDir pending heap timers promises next fs].
    by rewrite lookup_total_insert_eq. }
  intros tr σ' Hrun.
  apply (undecided_run tr (registered_state l timeoutMs σ) σ' l (next σ)).
  - by apply wf_registered_state.
  - done.
  - simpl. lia.
  - done.
  - intros k e Hke Hpe. simpl in Hke.
    destruct (decide (k = Approval.id (deref σ l))) as [->|Hne].
    + rewrite lookup_insert_eq in Hke. by injection Hke as <-.
    + rewrite lookup_insert_ne in Hke by done.
      destruct (wf_pending _ Hwf _ _ Hke) as (_ & _ & Htp & Htn & _). lia.
  - unfold undecided, settlements. simpl. by rewrite lookup_total_insert_eq.
Qed.

End Registry.

(** ** The journal and the audit log *)

Section AuditLog.
Context `{Platform}.

Lemma journal_extends_refl jp fs0 : journal_extends jp fs0 fs0.
Proof. split; [done|]. split; [done|]. split; [eauto|done]. Qed.

Lemma journal_extends_trans jp fs0 fs1 fs2 :
  journal_extends jp fs0 fs1 → journal_extends jp fs1 fs2 → journal_extends jp fs0 fs2.
Proof.
  intros (Hd1 & Ho1 & Hm1 & Ht1) (Hd2 & Ho2 & Hm2 & Ht2).
  split; [by etrans|]. split. { intros p Hp. by rewrite Ho2, Ho1. }
  split; [|by etrans].
  intros f Hf. destruct (Hm1 f Hf) as (f1 & Hf1 & Hmode1).
  destruct (Hm2 f1 Hf1) as (f2 & Hf2 & Hmode2). exists f2. split; [done|congruence].
Qed.

Lemma appendJournalEntry_extends faults pd record fs0 :
  let fs1 := (appendJournalEntry faults pd record fs0).2 in
  match usable (journalPath pd) with
  | Some jp => journal_extends jp fs0 fs1
  | None => fs1 = fs0
  end.
Proof.
  cbv zeta. unfold appendJournalEntry.
  destruct (usable (journalPath pd)) as [jp|]; [|done].
  unfold try_catch, io_then, io_bind, mkdirSync, appendFileSync, io_ret.
  assert (∀ made, journal_extends jp fs0 (Fs.mk (made ∪ Fs.dirs fs0) (Fs.files fs0)))
    as Hdir.
  { intros made. split; [apply union_subseteq_r|]. split; [done|].
    split; [eauto|done]. }
  destruct (mkdir_fault faults) as [[made e]|]; [apply Hdir|].
  assert (∀ written,
            journal_extends jp fs0
              (Fs.mk ({[ path_dirname jp ]} ∪ Fs.dirs fs0)
                 (<[jp := match Fs.files fs0 !! jp with
                          | Some f => Fs.mkfile (Fs.data f ++ written) (Fs.mode f)
                          | None => Fs.mkfile written mode_0o600
                          end]> (Fs.files fs0)))) as Happended.
  { intros written. split; [apply union_subseteq_r|]. unfold journal_text.
    cbn [Fs.files]. split. { intros p Hp. by rewrite lookup_insert_ne. }
    rewrite lookup_insert_eq. split.
    - intros f ->. eauto.
    - destruct (Fs.files fs0 !! jp); simpl; [by apply prefix_app_r|apply prefix_nil]. }
  simpl. case_decide; destruct (append_fault faults) as [[e|torn e]|]; simpl;
    first [apply Hdir|apply Happended].
Qed.

Lemma exec_journal ev σ σ' :
  exec ev σ = Some σ' →
  persistDir σ' = persistDir σ
  ∧ match usable (journalPath (persistDir σ)) with
    | Some jp => journal_extends jp (fs σ) (fs σ')
    | None => fs σ' = fs σ
    end
  ∧ ((∀ recordId decision resolvedBy now faults,
        ev ≠ EvResolve recordId decision resolvedBy now faults) → fs σ' = fs σ).
Proof.
  assert (match usable (journalPath (persistDir σ)) with
          | Some jp => journal_extends jp (fs σ) (fs σ)
          | None => fs σ = fs σ
          end) as Hsame.
  { destruct (usable _); [apply journal_extends_refl|done]. }
  intros Hex. destruct ev; simpl in Hex.
  - by injection Hex as <-.
  - by injection Hex as <-.
  - case_decide; [|done]. injection Hex as <-.
    destruct (pending σ !! Approval.id (deref σ l)) as [existing|] eqn:Hp.
    + by rewrite (register_existing _ _ _ _ Hp).
    + by rewrite (register_new _ _ _ Hp).
  - injection Hex as <-.
    destruct (pending σ !! recordId) as [p|] eqn:Hp.
    2:{ rewrite resolve_unknown by done. done. }
    destruct (Approval.resolvedAtMs (deref σ (Pending.record p))) as [t'|] eqn:Hr.
    { by rewrite (resolve_resolved _ _ _ _ _ _ p) by eauto. }
    rewrite (resolve_success _ _ _ _ _ _ p) by done.
    unfold settled_state. cbn [snd persistDir fs].
    split; [done|]. split; [apply appendJournalEntry_extends|].
    intros Hne. by destruct (Hne recordId decision resolvedBy now faults).
  - case_decide; [|done]. injection Hex as <-.
    destruct (timers σ !! t) as [[[e|k e] d]|] eqn:Ht.
    + by rewrite (fire_expire _ _ _ _ _ Ht).
    + by rewrite (fire_evict _ _ _ _ _ _ Ht).
    + unfold fire. by rewrite Ht.
Qed.

(** X9.  Through every sequence of events, whatever faults the journal
    writes meet, the manager keeps its directory setting and only ever
    extends the journal: every directory and every file stays, every file
    but the journal keeps its content, the journal keeps the mode it has
    and its earlier text is a prefix of its later text.  Without a durable
    directory the file system is never touched, and with one it is touched
    by [resolve] only: a sequence without a [resolve] leaves it as it
    is. *)
Theorem journal_is_append_only tr σ σ' :
  run tr σ = Some σ' →
  persistDir σ' = persistDir σ
  ∧ (usable (journalPath (persistDir σ)) = None → fs σ' = fs σ)
  ∧ (∀ jp, usable (journalPath (persistDir σ)) = Some jp →
       journal_extends jp (fs σ) (fs σ'))
  ∧ (Forall (λ ev, ∀ recordId decision resolvedBy now faults,
               ev ≠ EvResolve recordId decision resolvedBy now faults) tr →
     fs σ' = fs σ).
Proof.
  revert σ. induction tr as [|ev tr IH]; intros σ Hrun; simpl in Hrun.
  { injection Hrun as <-. split; [done|]. split; [done|].
    split; [|done]. intros. apply journal_extends_refl. }
  destruct (exec ev σ) as [σ1|] eqn:Hex; [|done].
  destruct (exec_journal _ _ _ Hex) as (Hpd1 & Hfs1 & Hquiet1).
  destruct (IH σ1 Hrun) as (Hpd & Hnone & Hsome & Hquiet).
  rewrite Hpd1 in *.
  split; [done|]. split; [|split].
  - intros Hjp. rewrite Hjp in Hfs1. rewrite Hnone by done. done.
  - intros jp Hjp. rewrite Hjp in Hfs1.
    eapply journal_extends_trans; [done|]. by apply Hsome.
  - intros Hall. apply Forall_cons in Hall as [Hev Hall].
    rewrite Hquiet by done. by apply Hquiet1.
Qed.

(** X10.  [getAuditLog] leaves the file system as [loadJournal] does and
    fails exactly when [loadJournal] fails, with the same error.  With no
    limit, a limit of zero or a negative limit it returns all the entries
    that [loadJournal] returns.  With a limit n above zero it returns the
    last n entries in their order, that is min(n, N) entries of the N,
    and all of them when n is N or more. *)
Theorem getAuditLog_limit limit fault pd fs0 :
  let loaded := loadJournal fault pd fs0 in
  let result := getAuditLog limit fault pd fs0 in
  result.2 = loaded.2
  ∧ (∀ err, loaded.1 = Throws err → result.1 = Throws err)
  ∧ ∀ entries, loaded.1 = Returns entries →
      match limit with
      | Some n =>
          if bool_decide (0 < n)%Z
          then result.1 = Returns (drop (length entries - Z.to_nat n) entries)
               ∧ (∃ older, entries = older ++ drop (length entries - Z.to_nat n) entries)
               ∧ length (drop (length entries - Z.to_nat n) entries)
                 = Nat.min (Z.to_nat n) (length entries)
               ∧ ((Z.of_nat (length entries) ≤ n)%Z → result.1 = Returns entries)
          else result.1 = Returns entries
      | None => result.1 = Returns entries
      end.
Proof.
  cbv zeta. unfold getAuditLog, io_bind.
  destruct (loadJournal fault pd fs0) as [[entries|err] fs1]; simpl.
  2:{ split; [done|]. split; [by intros ? [= <-]|done]. }
  assert ((match limit with
           | Some n => if bool_decide (n > 0)%Z then io_ret (slice_from (- n) entries)
                       else io_ret entries
           | None => io_ret entries
           end fs1).2 = fs1) as Hfs.
  { destruct limit as [n|]; [|done]. by case_bool_decide. }
  split; [done|]. split; [done|].
  intros ? [= <-]. destruct limit as [n|]; [|done].
  case_bool_decide as Hpos.
  - rewrite bool_decide_true by lia. simpl.
    assert (slice_from (- n) entries = drop (length entries - Z.to_nat n) entries) as ->.
    { unfold slice_from. rewrite (proj2 (Z.ltb_lt _ _)) by lia. f_equal. lia. }
    split; [done|]. split.
    { exists (take (length entries - Z.to_nat n) entries). by rewrite take_drop. }
    split. { rewrite length_drop. lia. }
    intros Hall. replace (length entries - Z.to_nat n) with 0 by lia. done.
  - rewrite bool_decide_false by lia. done.
Qed.

Lemma parse_line_padded ws1 ws2 e :
  padding ws1 → padding ws2 →
  parse_line (ws1 ++ stringify (Journal.to_json e) ++ ws2)
  = JSON_parse (stringify (Journal.to_json e)).
Proof.
  intros Hws1 Hws2. unfold parse_line.
  assert (trim (ws1 ++ stringify (Journal.to_json e) ++ ws2)
          = stringify (Journal.to_json e)) as ->.
  { unfold Journal.to_json.
    match goal with |- context [stringify (JObject ?ms)] =>
      destruct (stringify_object_shape ms) as [body ->] end.
    by apply trim_padded. }
  by destruct (trim_stringify_entry e) as [_ ->].
Qed.

(** X11.  [loadJournal] reads a journal whatever white space surrounds its
    lines.  A line of blanks, tabs or a carriage return only contributes
    nothing, wherever it stands; a journal line with such white space
    before or after it, as in a file with CRLF line ends or indented
    lines, is parsed as the line itself; and the last line counts when the
    file does not end with a line feed. *)
Theorem loadJournal_is_lenient pd fs0 jp :
  usable (journalPath pd) = Some jp →
  loadJournal None pd fs0 = (Returns (entries_of (journal_text fs0 jp)), fs0)
  ∧ (∀ ws, padding ws → entries_of ws = [])
  ∧ (∀ ws rest, padding ws → entries_of (ws ++ LF :: rest) = entries_of rest)
  ∧ (∀ ws1 ws2 e rest, padding ws1 → padding ws2 →
       entries_of (ws1 ++ stringify (Journal.to_json e) ++ ws2 ++ LF :: rest)
       = option_list (JSON_parse (stringify (Journal.to_json e))) ++ entries_of rest)
  ∧ (∀ ws1 ws2 e, padding ws1 → padding ws2 →
       entries_of (ws1 ++ stringify (Journal.to_json e) ++ ws2)
       = option_list (JSON_parse (stringify (Journal.to_json e)))).
Proof.
  intros Hjp. split; [by apply loadJournal_no_fault|].
  assert (∀ ws, padding ws → entries_of ws = []) as Hblank.
  { intros ws Hws. rewrite entries_of_one_line by by apply padding_no_LF.
    unfold parse_line. by rewrite trim_padding. }
  assert (∀ ws1 ws2 e, padding ws1 → padding ws2 →
            entries_of (ws1 ++ stringify (Journal.to_json e) ++ ws2)
            = option_list (JSON_parse (stringify (Journal.to_json e)))) as Hline.
  { intros ws1 ws2 e Hws1 Hws2. rewrite entries_of_one_line.
    - by rewrite parse_line_padded.
    - apply Forall_app. split; [by apply padding_no_LF|].
      apply Forall_app. split; [apply stringify_no_LF|by apply padding_no_LF]. }
  split; [done|]. split.
  { intros ws rest Hws. by rewrite entries_of_app, Hblank. }
  split; [|done].
  intros ws1 ws2 e rest Hws1 Hws2.
  replace (ws1 ++ stringify (Journal.to_json e) ++ ws2 ++ LF :: rest)
    with ((ws1 ++ stringify (Journal.to_json e) ++ ws2) ++ LF :: rest)
    by (by rewrite <- !app_assoc).
  by rewrite entries_of_app, Hline.
Qed.

Lemma exec_journal_lines ev σ σ' jp :
  usable (journalPath (persistDir σ)) = Some jp →
  exec ev σ = Some σ' → untorn ev →
  persistDir σ' = persistDir σ
  ∧ ∃ entries : list JournalEntry,
      journal_text (fs σ') jp
      = journal_text (fs σ) jp ++ concat (journal_line <$> entries)
      ∧ length entries ≤ (if is_resolve ev then 1 else 0)
      ∧ Forall (λ e, is_Some (Journal.decision e) ∧ is_Some (Journal.resolvedAtMs e))
               entries.
Proof.
  intros Hjp Hex Hwhole.
  assert (∀ b : bool, ∃ entries : list JournalEntry,
            journal_text (fs σ) jp
            = journal_text (fs σ) jp ++ concat (journal_line <$> entries)
            ∧ length entries ≤ (if b then 1 else 0)
            ∧ Forall (λ e, is_Some (Journal.decision e)
                           ∧ is_Some (Journal.resolvedAtMs e)) entries) as Hsame.
  { intros b. exists []. rewrite fmap_nil. change (concat []) with (@nil N).
    rewrite app_nil_r. split; [done|]. split; [simpl; lia|constructor]. }
  destruct ev; simpl in Hex.
  - injection Hex as <-. split; [done|]. apply (Hsame false).
  - injection Hex as <-. split; [done|]. apply (Hsame false).
  - case_decide; [|done]. injection Hex as <-.
    destruct (pending σ !! Approval.id (deref σ l)) as [existing|] eqn:Hp.
    + rewrite (register_existing _ _ _ _ Hp). split; [done|]. apply (Hsame false).
    + rewrite (register_new _ _ _ Hp). split; [done|]. apply (Hsame false).
  - injection Hex as <-.
    destruct (pending σ !! recordId) as [p|] eqn:Hp.
    2:{ rewrite resolve_unknown by done. split; [done|]. apply (Hsame true). }
    destruct (Approval.resolvedAtMs (deref σ (Pending.record p))) as [t'|] eqn:Hr.
    { rewrite (resolve_resolved _ _ _ _ _ _ p) by eauto.
      split; [done|]. apply (Hsame true). }
    rewrite (resolve_success _ _ _ _ _ _ p) by done.
    unfold settled_state. cbn [snd persistDir fs]. split; [done|].
    destruct (appendJournalEntry_text faults (persistDir σ)
                (Approval.stamp now (Some decision) (orNull resolvedBy)
                   (deref σ (Pending.record p))) (fs σ) jp Hjp) as [_ Htext].
    destruct Htext as [Heq|Heq].
    { intros torn e Hf. simpl in Hwhole. by rewrite Hf in Hwhole. }
    + rewrite Heq. apply (Hsame true).
    + rewrite Heq. eexists [_]. rewrite fmap_cons, fmap_nil.
      change (concat [?x]) with (x ++ []). rewrite app_nil_r.
      split; [done|]. split; [simpl; lia|].
      constructor; [|constructor]. simpl. eauto.
  - case_decide; [|done]. injection Hex as <-.
    destruct (timers σ !! t) as [[[e|k e] d]|] eqn:Ht.
    + rewrite (fire_expire _ _ _ _ _ Ht). split; [done|]. apply (Hsame false).
    + rewrite (fire_evict _ _ _ _ _ _ Ht). split; [done|]. apply (Hsame false).
    + unfold fire. rewrite Ht. split; [done|]. apply (Hsame false).
Qed.

Lemma terminated_lines text (entries : list JournalEntry) :
  terminated text → terminated (text ++ concat (journal_line <$> entries)).
Proof.
  intros Hterm. induction entries as [|e entries IH] using rev_ind.
  - rewrite fmap_nil. change (concat []) with (@nil N). by rewrite app_nil_r.
  - right. rewrite fmap_app, concat_app, fmap_cons, fmap_nil.
    change (concat [?x]) with (x ++ []). rewrite app_nil_r. unfold journal_line.
    exists (text ++ concat (journal_line <$> entries) ++ stringify (Journal.to_json e)).
    by rewrite <- !app_assoc.
Qed.

(** X12.  Through every sequence of events in which no journal write
    fails in the middle of its writes (each writes its whole line, or
    fails before it writes anything), the journal gains whole lines only:
    its text is the earlier text followed by the lines of some entries, at
    most one for each [resolve] of the sequence, and each of them carries
    a decision and the time of its resolution, so an expiry is never
    journaled.  A journal that was empty or ended with a line feed ends
    with a line feed again, and a manager constructed anew on the same
    directory reads the earlier entries followed by these (when
    [JSON.parse] reads back what [JSON.stringify] wrote for them), as the
    manager that wrote them does. *)
Theorem journal_holds_whole_lines tr σ σ' jp :
  run tr σ = Some σ' →
  usable (journalPath (persistDir σ)) = Some jp →
  Forall untorn tr →
  ∃ entries : list JournalEntry,
    journal_text (fs σ') jp
    = journal_text (fs σ) jp ++ concat (journal_line <$> entries)
    ∧ length entries ≤ length (List.filter is_resolve tr)
    ∧ Forall (λ e, is_Some (Journal.decision e) ∧ is_Some (Journal.resolvedAtMs e))
             entries
    ∧ (terminated (journal_text (fs σ) jp) →
       terminated (journal_text (fs σ') jp)
       ∧ (Forall (λ e, JSON_parse (stringify (Journal.to_json e))
                       = Some (Journal.to_json e)) entries →
          let restarted := init (persistDir σ) (fs σ') in
          getAuditLog None None (persistDir restarted) (fs restarted)
          = (Returns (entries_of (journal_text (fs σ) jp)
                      ++ (Journal.to_json <$> entries)), fs σ')
          ∧ getAuditLog None None (persistDir σ') (fs σ')
            = getAuditLog None None (persistDir restarted) (fs restarted))).
Proof.
  intros Hrun Hjp Hwhole.
  assert (persistDir σ' = persistDir σ
          ∧ ∃ entries : list JournalEntry,
              journal_text (fs σ') jp
              = journal_text (fs σ) jp ++ concat (journal_line <$> entries)
              ∧ length entries ≤ length (List.filter is_resolve tr)
              ∧ Forall (λ e, is_Some (Journal.decision e)
                             ∧ is_Some (Journal.resolvedAtMs e)) entries)
    as (Hpd & entries & Htext & Hlen & Hdec).
  { revert σ Hrun Hjp.
    induction Hwhole as [|ev tr Hev Hwhole IH]; intros σ Hrun Hjp; simpl in Hrun.
    - injection Hrun as <-. split; [done|]. exists [].
      rewrite fmap_nil. change (concat []) with (@nil N). rewrite app_nil_r.
      split; [done|]. split; [simpl; lia|constructor].
    - destruct (exec ev σ) as [σ1|] eqn:Hex; [|done].
      destruct (exec_journal_lines _ _ _ _ Hjp Hex Hev)
        as (Hpd1 & es1 & Ht1 & Hl1 & Hd1).
      destruct (IH σ1 Hrun) as (Hpd' & es & Ht & Hl & Hd); [by rewrite Hpd1|].
      split; [congruence|]. exists (es1 ++ es).
      split. { rewrite Ht, Ht1, fmap_app, concat_app. by rewrite <- app_assoc. }
      split. { rewrite length_app. simpl. destruct (is_resolve ev); simpl; lia. }
      by apply Forall_app. }
  exists entries. do 3 (split; [done|]).
  intros Hterm. split. { rewrite Htext. by apply terminated_lines. }
  intros Hparse. cbv zeta. cbn [init persistDir fs].
  assert (getAuditLog None None (persistDir σ) (fs σ')
          = (Returns (entries_of (journal_text (fs σ) jp)
                      ++ (Journal.to_json <$> entries)), fs σ')) as Hlog.
  { unfold getAuditLog, io_bind. rewrite (loadJournal_no_fault _ _ jp) by done.
    rewrite Htext, entries_of_terminated by done.
    by rewrite entries_of_lines. }
  split; [done|]. by rewrite Hpd.
Qed.

End AuditLog.

(** * The further properties on the sample scenario *)

Lemma resolved_reachable : reachable Sample.resolved.
Proof. apply orderly_reachable, resolved_orderly. Qed.

Lemma created_reachable : reachable Sample.created.
Proof.
  apply (after_reachable Sample.dir
           [EvCreate (Sample.req "echo hello") 30000 (Some (str "a")) 10
                     (str "uuid-1")]).
  vm_compute; reflexivity.
Qed.

Lemma evicted_reachable : reachable Sample.evicted.
Proof.
  apply (after_reachable Sample.dir (Sample.three_resolved ++ [EvFire 9 20000])).
  vm_compute; reflexivity.
Qed.

(** X1 on the scenario: the first request, created, is registered. *)
Lemma register_untracked_id_witness :
  (register 0 30000 Sample.created).1 = Returns 1
  ∧ awaitDecision (str "a") (register 0 30000 Sample.created).2 = Some 1
  ∧ getSnapshot (str "a") (register 0 30000 Sample.created).2 = Some 0.
Proof.
  destruct (register_untracked_id 0 30000 Sample.created created_reachable)
    as (Hret & _ & _ & Hpromise & Hrecord & _); [vm_compute; reflexivity|].
  exact (conj Hret (conj Hpromise Hrecord)).
Defined.

(** X2 on the scenario: the eviction of the first request fires. *)
Lemma eviction_removes_the_entry_witness :
  pending Sample.resolved !! str "a" = Some Sample.entry_a
  ∧ getSnapshot (str "a") (fire 9 20000 Sample.resolved) = None
  ∧ awaitDecision (str "a") (fire 9 20000 Sample.resolved) = None.
Proof.
  destruct (eviction_removes_the_entry Sample.resolved 9 (str "a") Sample.entry_a
              15000 20000 resolved_reachable)
    as (_ & Hk & _ & _ & _ & Hrecord & Hpromise & _); [vm_compute; reflexivity|].
  exact (conj Hk (conj Hrecord Hpromise)).
Defined.

(** X3 on the scenario: the timer 9 is the eviction of a tracked entry. *)
Lemma every_entry_is_on_one_timer_witness :
  let tm := mkTimer (Evict (str "a") Sample.entry_a) 15000 in
  ∃ k e, pending Sample.resolved !! k = Some e
         ∧ (9 = Pending.timer e ∧ t_callback tm = Expire e
            ∨ tm = mkTimer (Evict k e) RESOLVED_ENTRY_GRACE_MS).
Proof.
  cbv zeta.
  destruct (every_entry_is_on_one_timer Sample.resolved resolved_reachable)
    as [_ Htimers].
  apply (Htimers 9). vm_compute; reflexivity.
Defined.

(** X4 on the scenario: the first request is resolved, the second is left
    alone. *)
Lemma entries_are_independent_witness :
  let σ' := (resolve (str "a") (str "approve") Sample.user 1000 no_faults
                     Sample.registered).2 in
  awaitDecision (str "b") σ' = Some 4
  ∧ deref σ' 3 = deref Sample.registered 3
  ∧ settlements σ' 4 = settlements Sample.registered 4.
Proof.
  cbv zeta.
  destruct (entries_are_independent Sample.registered (str "b") Sample.entry_b
              (EvResolve (str "a") (str "approve") Sample.user 1000 no_faults)
              (resolve (str "a") (str "approve") Sample.user 1000 no_faults
                       Sample.registered).2 registered_reachable)
    as (Hpromise & _ & Hrecord & Hlog & _).
  - vm_compute; reflexivity.
  - reflexivity.
  - intros Hc. vm_compute in Hc. discriminate Hc.
  - exact (conj Hpromise (conj Hrecord Hlog)).
Defined.

(** X5 on the scenario: during the grace period of the first request. *)
Lemma resolved_entry_stays_for_the_grace_period_witness :
  let σ' := Sample.after Sample.dir (Sample.three_resolved ++ Sample.meanwhile) in
  ∃ t, timers Sample.resolved !! t
       = Some (mkTimer (Evict (str "a") Sample.entry_a) RESOLVED_ENTRY_GRACE_MS)
       ∧ (Forall (λ ev, ∀ now, ev ≠ EvFire t now) Sample.meanwhile →
            awaitDecision (str "a") σ' = Some 1
            ∧ getSnapshot (str "a") σ' = Some 0
            ∧ fulfilled σ' 1 = Some (Some (str "approve"))
            ∧ timers σ' !! t
              = Some (mkTimer (Evict (str "a") Sample.entry_a)
                              RESOLVED_ENTRY_GRACE_MS)).
Proof.
  cbv zeta.
  apply (resolved_entry_stays_for_the_grace_period Sample.meanwhile Sample.resolved
           (Sample.after Sample.dir (Sample.three_resolved ++ Sample.meanwhile))
           (str "a") Sample.entry_a (Some (str "approve")) resolved_reachable);
    vm_compute; reflexivity.
Defined.

(** X6 on the scenario: the client that registers the resolved record of
    the first request again. *)
Lemma any_client_resolution_sticks_witness :
  let σ' := Sample.after Sample.dir (Sample.three_resolved ++ Sample.again) in
  Approval.id (deref σ' 0) = Approval.id (deref Sample.resolved 0)
  ∧ Approval.request (deref σ' 0) = Approval.request (deref Sample.resolved 0)
  ∧ settlements σ' 1 = [Some (str "approve")].
Proof.
  cbv zeta.
  destruct (any_client_resolution_sticks Sample.again Sample.resolved
              (Sample.after Sample.dir (Sample.three_resolved ++ Sample.again))
              resolved_reachable) as (Hrecord & Hpromise & _);
    [vm_compute; reflexivity|].
  destruct (Hrecord 0) as (_ & Hid & Hrequest & _); [vm_compute; eauto|].
  destruct (Hpromise 1 (Some (str "approve"))) as [_ Hlog]; [vm_compute; reflexivity|].
  exact (conj Hid (conj Hrequest Hlog)).
Defined.

(** X7 on an id with white space around it. *)
Lemma created_request_is_tracked_witness :
  let r := create Sample.req_echo 30000 (Some (str "  a1 ")) 10 (str "uuid-1") in
  let σ2 := (register 0 30000 (alloc r (init Sample.dir Fs.empty)).2).2 in
  awaitDecision (str "a1") σ2 = Some 1
  ∧ awaitDecision (str "  a1 ") σ2 = None.
Proof.
  cbv zeta.
  destruct (created_request_is_tracked Sample.req_echo 30000 (Some (str "  a1 ")) 10
              (str "uuid-1") 30000 (init Sample.dir Fs.empty))
    as (_ & _ & _ & Hpromise & _ & _ & _ & _ & Hsupplied & _);
    [vm_compute; reflexivity|].
  destruct (Hsupplied (str "  a1 ")) as (_ & Hnone & _).
  - reflexivity.
  - intros Hc. vm_compute in Hc. discriminate Hc.
  - intros Hc. vm_compute in Hc. discriminate Hc.
  - vm_compute; reflexivity.
  - exact (conj Hpromise Hnone).
Defined.

(** X8 on the scenario: the resolved record of the first request is
    registered again after its eviction. *)
Lemma resolved_record_registered_anew_witness :
  (register 0 30000 Sample.evicted).1 = Returns 12
  ∧ resolve (str "a") (str "deny") Null 30000 no_faults
            (register 0 30000 Sample.evicted).2
    = (Returns false, (register 0 30000 Sample.evicted).2).
Proof.
  destruct (resolved_record_registered_anew 0 30000 Sample.evicted evicted_reachable)
    as (Hret & _ & _ & Hresolve & _); [vm_compute; eauto..|].
  exact (conj Hret (Hresolve (str "deny") Null 30000%Z no_faults)).
Defined.

(** X9 on the scenario: the three resolutions extend the journal. *)
Lemma journal_is_append_only_witness :
  journal_extends Sample.journal_file (fs Sample.registered) (fs Sample.resolved).
Proof.
  destruct (journal_is_append_only Sample.resolutions Sample.registered
              Sample.resolved) as (_ & _ & Hextends & _); [vm_compute; reflexivity|].
  apply Hextends. vm_compute; reflexivity.
Defined.

(** X11 on an indented journal line of a file with CRLF line ends. *)
Lemma loadJournal_is_lenient_witness :
  let e := Sample.echo_entry "a" "echo hello" "approve" 1000 in
  entries_of (str "  " ++ stringify (Journal.to_json e) ++ [13%N] ++ LF :: [])
  = [Journal.to_json e].
Proof.
  cbv zeta.
  destruct (loadJournal_is_lenient Sample.dir Fs.empty Sample.journal_file)
    as (_ & _ & _ & Hline & _); [vm_compute; reflexivity|].
  etrans.
  - apply (Hline (str "  ") [13%N]
                 (Sample.echo_entry "a" "echo hello" "approve" 1000) []).
    + repeat constructor; discriminate.
    + repeat constructor; discriminate.
  - vm_compute; reflexivity.
Defined.

(** X12 on the scenario: the journal after the three resolutions. *)
Lemma journal_holds_whole_lines_witness :
  ∃ entries : list JournalEntry,
    journal_text (fs Sample.resolved) Sample.journal_file
    = journal_text (fs Sample.registered) Sample.journal_file
      ++ concat (journal_line <$> entries)
    ∧ length entries ≤ 3.
Proof.
  destruct (journal_holds_whole_lines Sample.resolutions Sample.registered
              Sample.resolved Sample.journal_file)
    as (entries & Htext & Hlen & _).
  - vm_compute; reflexivity.
  - vm_compute; reflexivity.
  - repeat constructor.
  - exists entries. exact (conj Htext Hlen).
Defined.
